(** * LEO satellite latency visualiser: the simulation core of [src/App.jsx]

    The development embeds the numerical core of the React component [App]:
    ingestion of the element sets, generation of the ground nodes, the
    projection of inertial positions to latitude and longitude, the
    nearest-satellite latency of every ground node, and the statistics that
    are published once per tick.

    Numbers.  The component is embedded twice.

    In the first embedding a JavaScript number is a real number or one of
    the three special values [Infinity], [-Infinity] and [NaN].  Arithmetic
    on the finite values is exact real arithmetic: rounding to binary64 and
    the sign of zero are not modelled.  The special values follow IEEE 754,
    which is what the program observes when it starts its running minimum
    at [Infinity].  This embedding carries the statements about ranges,
    order and structure, which do not depend on rounding.

    In the second embedding, the module [B64], a JavaScript number is a
    binary64 floating-point number and every operation rounds as the
    program's does.  It carries the statements in which rounding decides the
    outcome: the distance that [haversine] fails to compute for two nearly
    antipodal positions, and the mean of [d3.mean]. *)

From Stdlib Require Import String Ascii.
From Stdlib Require Import Reals Lra Lia List ZArith Bool Arith.
From Stdlib Require Import Sorting.Permutation Sorting.Sorted.
From Stdlib Require Floats.
Import ListNotations.

Local Open Scope R_scope.

(** ** JavaScript numbers *)

Module JS.

Inductive num : Type :=
| Fin (r : R)
| PInf
| NInf
| NaN.

Definition Rltb (a b : R) : bool := if Rlt_dec a b then true else false.
Definition Rleb (a b : R) : bool := if Rle_dec a b then true else false.
Definition Reqb (a b : R) : bool := if Req_dec_T a b then true else false.

Definition isNaN (a : num) : bool :=
  match a with NaN => true | _ => false end.

Definition isFinite (a : num) : bool :=
  match a with Fin _ => true | _ => false end.

Definition neg (a : num) : num :=
  match a with
  | Fin r => Fin (- r)
  | PInf => NInf
  | NInf => PInf
  | NaN => NaN
  end.

Definition add (a b : num) : num :=
  match a, b with
  | NaN, _ | _, NaN => NaN
  | Fin x, Fin y => Fin (x + y)
  | PInf, NInf | NInf, PInf => NaN
  | PInf, _ | _, PInf => PInf
  | NInf, _ | _, NInf => NInf
  end.

Definition sub (a b : num) : num := add a (neg b).

(** An infinity scaled by a finite factor: the sign of the factor decides,
    and a zero factor gives [NaN]. *)
Definition scale_inf (inf : num) (x : R) : num :=
  if Rltb 0 x then inf else if Rltb x 0 then neg inf else NaN.

Definition mul (a b : num) : num :=
  match a, b with
  | NaN, _ | _, NaN => NaN
  | Fin x, Fin y => Fin (x * y)
  | Fin x, PInf | PInf, Fin x => scale_inf PInf x
  | Fin x, NInf | NInf, Fin x => scale_inf NInf x
  | PInf, PInf | NInf, NInf => PInf
  | PInf, NInf | NInf, PInf => NInf
  end.

(** Division; a zero divisor is read as [+0]. *)
Definition div (a b : num) : num :=
  match a, b with
  | NaN, _ | _, NaN => NaN
  | Fin x, Fin y => if Reqb y 0 then scale_inf PInf x else Fin (x / y)
  | Fin _, PInf | Fin _, NInf => Fin 0
  | PInf, Fin y => if Rltb y 0 then NInf else PInf
  | NInf, Fin y => if Rltb y 0 then PInf else NInf
  | _, _ => NaN
  end.

(** [a < b]: every comparison with [NaN] is false. *)
Definition lt (a b : num) : bool :=
  match a, b with
  | NaN, _ | _, NaN => false
  | Fin x, Fin y => Rltb x y
  | _, NInf => false
  | NInf, _ => true
  | PInf, _ => false
  | Fin _, PInf => true
  end.

Definition gt (a b : num) : bool := lt b a.

(** [a <= b]. *)
Definition le (a b : num) : bool :=
  match a, b with
  | NaN, _ | _, NaN => false
  | Fin x, Fin y => Rleb x y
  | NInf, _ => true
  | _, PInf => true
  | _, NInf => false
  | PInf, Fin _ => false
  end.

Definition ge (a b : num) : bool := le b a.

(** [+v] for a value that may be [undefined]. *)
Definition number (v : option num) : num :=
  match v with Some a => a | None => NaN end.

(** [Math.trunc] and [Math.floor] on finite values, as integers. *)
Definition floorZ (x : R) : Z := Int_part x.
Definition truncZ (x : R) : Z :=
  if Rle_dec 0 x then Int_part x else (- Int_part (- x))%Z.

(** The remainder operator [a % b] on finite operands, [b <> 0]:
    the quotient is truncated, so the result has the sign of [a]. *)
Definition rem (a b : R) : R := a - b * IZR (truncZ (a / b)).

(** [Math.atan2(y, x)]. *)
Definition atan2 (y x : R) : R :=
  if Rlt_dec 0 x then atan (y / x)
  else if Rlt_dec x 0 then
         if Rle_dec 0 y then atan (y / x) + PI else atan (y / x) - PI
  else if Rlt_dec 0 y then PI / 2
  else if Rlt_dec y 0 then - (PI / 2)
  else 0.

(** [array.sort(compare)]: a stable sort; [compare a b > 0] moves [a]
    behind [b], and a [NaN] comparison counts as [0]. *)
Fixpoint insert (compare : num -> num -> num) (a : num) (l : list num)
  : list num :=
  match l with
  | [] => [a]
  | b :: l' =>
      if gt (compare a b) (Fin 0) then b :: insert compare a l'
      else a :: l
  end.

Definition sort (compare : num -> num -> num) (l : list num) : list num :=
  fold_right (insert compare) [] l.

End JS.

Import JS.

(** ** The functions of d3-array the component calls *)

Module d3.

(** [d3.range(n)]. *)
Definition range (n : nat) : list nat := seq 0 n.

(** The values d3 counts as numbers: neither [null] nor [NaN]
    ([value >= value]). *)
Definition numbers (values : list num) : list num :=
  filter (fun value => ge value value) values.

(** [d3.mean]: sum and count of the numbers; [undefined] without any. *)
Definition mean (values : list num) : option num :=
  let '(count, sum) :=
    fold_left
      (fun '(count, sum) value =>
         if ge value value then (S count, add sum value) else (count, sum))
      values (O, Fin 0) in
  match count with
  | O => None
  | S _ => Some (div sum (Fin (INR count)))
  end.

(** [d3.min] and [d3.max]. *)
Definition min (values : list num) : option num :=
  fold_left
    (fun m value =>
       match m with
       | None => if ge value value then Some value else None
       | Some mv => if gt mv value then Some value else m
       end)
    values None.

Definition max (values : list num) : option num :=
  fold_left
    (fun m value =>
       match m with
       | None => if ge value value then Some value else None
       | Some mv => if lt mv value then Some value else m
       end)
    values None.

(** [d3.ascending] on numbers, the order of [quickselect]. *)
Definition ascending (a b : num) : num :=
  if lt a b then Fin (-1)
  else if gt a b then Fin 1
  else if ge a b then Fin 0
  else NaN.

(** [quickselect(values, k)] rearranges [values] so that the element of
    rank [k] is at index [k], smaller ones before it and larger ones after
    it.  The fully sorted array is such an arrangement; [quantile] only
    takes the maximum before and the minimum after index [k]. *)
Definition quickselect (values : list num) (k : nat) : list num :=
  JS.sort ascending values.

(** [d3.quantile(values, p)] for a finite [p]. *)
Definition quantile (values : list num) (p : R) : option num :=
  let values := numbers values in
  let n := length values in
  match n with
  | O => None
  | S n1 =>
      if Rleb p 0 || (n <? 2)%nat then min values
      else if Rleb 1 p then max values
      else
        let i := INR n1 * p in
        let i0 := Z.to_nat (floorZ i) in
        let values := quickselect values i0 in
        let value0 := number (max (firstn (i0 + 1) values)) in
        let value1 := number (min (skipn (i0 + 1) values)) in
        Some (add value0 (mul (sub value1 value0) (Fin (i - INR i0))))
  end.

(** [d3.median]. *)
Definition median (values : list num) : option num :=
  quantile values 0.5.

(** [d3.quantileSorted(values, p)] for a finite [p]; an index past the end
    of the array reads [undefined]. *)
Definition quantileSorted (values : list num) (p : R) : option num :=
  let n := length values in
  match n with
  | O => None
  | S n1 =>
      if Rleb p 0 || (n <? 2)%nat then Some (nth 0 values NaN)
      else if Rleb 1 p then Some (nth n1 values NaN)
      else
        let i := INR n1 * p in
        let i0 := Z.to_nat (floorZ i) in
        let value0 := nth i0 values NaN in
        let value1 := nth (i0 + 1) values NaN in
        Some (add value0 (mul (sub value1 value0) (Fin (i - INR i0))))
  end.

End d3.

(** ** Strings: [split("\n")] and [trim] *)

Definition newline : ascii := "010"%char.

(** [text.split("\n")]: always at least one piece. *)
Fixpoint split_newline (text : string) : list string :=
  match text with
  | EmptyString => [EmptyString]
  | String c rest =>
      if Ascii.eqb c newline then EmptyString :: split_newline rest
      else match split_newline rest with
           | [] => [String c EmptyString]
           | piece :: pieces => String c piece :: pieces
           end
  end.

(** White space of the ASCII range (tab, line feed, vertical tab, form feed,
    carriage return, space). *)
Definition is_space (c : ascii) : bool :=
  let n := nat_of_ascii c in
  ((9 <=? n) && (n <=? 13) || (n =? 32))%nat.

Fixpoint trimStart (s : string) : string :=
  match s with
  | EmptyString => EmptyString
  | String c rest => if is_space c then trimStart rest else s
  end.

Fixpoint trimEnd (s : string) : string :=
  match s with
  | EmptyString => EmptyString
  | String c rest =>
      match trimEnd rest with
      | EmptyString => if is_space c then EmptyString else String c EmptyString
      | rest' => String c rest'
      end
  end.

Definition trim (s : string) : string := trimEnd (trimStart s).

(** ** Data of the component *)

(** The [position] of satellite.js, kilometres in the inertial frame. *)
Record Eci : Type := { x : R; y : R; z : R }.

(** What [propagate] returns; [position] is falsy when propagation failed. *)
Record PosVel : Type := { position : option Eci }.

(** [{ lat, lon }], degrees. *)
Record Geo : Type := { lat : R; lon : R }.

(** [{ name, l1, l2 }]; a line read past the end of the array is
    [undefined]. *)
Record TLE : Type := { name : string; l1 : option string; l2 : option string }.

(** [{ mean, median, p95 }]; a d3 reduction may be [undefined]. *)
Record Stats : Type :=
  { mean : option num; median : option num; p95 : option num }.

(** The React state of [App]. *)
Record State : Type :=
  { tleData : list TLE;
    sats : list Geo;
    groundNodes : list Geo;
    stats : Stats;
    running : bool }.

(** satellite.js and the clock, the collaborators the component imports. *)
Class Externals : Type :=
  { Date : Type;
    Satrec : Type;
    gstime : Date -> R;
    twoline2satrec : option string -> option string -> Satrec;
    propagate : Satrec -> Date -> PosVel }.

Definition setTleData (v : list TLE) (st : State) : State :=
  {| tleData := v; sats := sats st; groundNodes := groundNodes st;
     stats := stats st; running := running st |}.

Definition setSats (v : list Geo) (st : State) : State :=
  {| tleData := tleData st; sats := v; groundNodes := groundNodes st;
     stats := stats st; running := running st |}.

Definition setGroundNodes (v : list Geo) (st : State) : State :=
  {| tleData := tleData st; sats := sats st; groundNodes := v;
     stats := stats st; running := running st |}.

Definition setStats (v : Stats) (st : State) : State :=
  {| tleData := tleData st; sats := sats st; groundNodes := groundNodes st;
     stats := v; running := running st |}.

Definition setRunning (v : bool) (st : State) : State :=
  {| tleData := tleData st; sats := sats st; groundNodes := groundNodes st;
     stats := stats st; running := v |}.

(** The [useState] initial values. *)
Definition initial : State :=
  {| tleData := []; sats := []; groundNodes := [];
     stats := {| mean := Some (Fin 0); median := Some (Fin 0);
                 p95 := Some (Fin 0) |};
     running := false |}.

(** ** 1. Ingestion of the element sets *)

(** The loop [for (i = 0; i < lines.length; i += 3)]. *)
Fixpoint tles_of_lines (lines : list string) : list TLE :=
  match lines with
  | [] => []
  | [n] => [{| name := trim n; l1 := None; l2 := None |}]
  | [n; a] => [{| name := trim n; l1 := Some a; l2 := None |}]
  | n :: a :: b :: rest =>
      {| name := trim n; l1 := Some a; l2 := Some b |} :: tles_of_lines rest
  end.

Definition fetched (text : string) : list TLE :=
  let lines :=
    filter (fun l => (0 <? String.length (trim l))%nat) (split_newline text) in
  let tles := tles_of_lines lines in
  firstn 40 tles.

(** ** 2. Random ground nodes *)

(** [Math.random] is a source of numbers consumed in order: a computation
    reads the sequence [rnd] from a position and returns the next one. *)
Definition Rand (A : Type) : Type := (nat -> R) -> nat -> A * nat.

Definition ret {A : Type} (a : A) : Rand A := fun _ k => (a, k).

Definition bind {A B : Type} (m : Rand A) (f : A -> Rand B) : Rand B :=
  fun rnd k => let '(a, k') := m rnd k in f a rnd k'.

Notation "v <- m ;; k" := (bind m (fun v => k))
  (at level 61, m at next level, right associativity).

Definition Math_random : Rand R := fun rnd k => (rnd k, S k).

Fixpoint mapM {A B : Type} (f : A -> Rand B) (l : list A) : Rand (list B) :=
  match l with
  | [] => ret []
  | a :: l' => b <- f a ;; bs <- mapM f l' ;; ret (b :: bs)
  end.

Definition nodes : Rand (list Geo) :=
  mapM (fun _ =>
          lat <- Math_random ;;
          lon <- Math_random ;;
          ret {| lat := lat * 140 - 70; lon := lon * 360 - 180 |})
       (d3.range 20).

(** ** 3. The simulation tick *)

Definition toDegrees (rad : R) : R := rad * 180 / PI.

(** ** 4. Distance helper *)
Definition haversine (lat1 lon1 lat2 lon2 : R) : R :=
  let R := 6371 in
  let toRad := fun deg => deg * PI / 180 in
  let dLat := toRad (lat2 - lat1) in
  let dLon := toRad (lon2 - lon1) in
  let a :=
    sin (dLat / 2) ^ 2 +
    cos (toRad lat1) * cos (toRad lat2) * sin (dLon / 2) ^ 2 in
  2 * R * atan2 (sqrt a) (sqrt (1 - a)).

(** The projection of one propagated position. *)
Definition project (gmst : R) (pos : Eci) : Geo :=
  let r := sqrt (x pos * x pos + y pos * y pos) in
  let lon := toDegrees (atan2 (y pos) (x pos)) - toDegrees gmst in
  let lat := toDegrees (atan2 (z pos) r) in
  {| lat := lat; lon := rem (lon + 540) 360 - 180 |}.

(** [.filter(Boolean)] on an array of objects and [null]s. *)
Fixpoint filter_Boolean {A : Type} (l : list (option A)) : list A :=
  match l with
  | [] => []
  | None :: l' => filter_Boolean l'
  | Some a :: l' => a :: filter_Boolean l'
  end.

Definition satPositions `{Externals} (now : Date) (gmst : R)
  (tleData : list TLE) : list Geo :=
  filter_Boolean
    (map (fun tle =>
            let satrec := twoline2satrec (l1 tle) (l2 tle) in
            let posVel := propagate satrec now in
            match position posVel with
            | None => None
            | Some pos => Some (project gmst pos)
            end)
         tleData).

(** The running minimum of one ground node over the satellites. *)
Definition minD (g : Geo) (satPositions : list Geo) : num :=
  fold_left
    (fun minD s =>
       let d := Fin (haversine (lat g) (lon g) (lat s) (lon s)) in
       if lt d minD then d else minD)
    satPositions PInf.

Definition latencies (groundNodes satPositions : list Geo) : list num :=
  map (fun g => mul (div (minD g satPositions) (Fin 300000)) (Fin 1000))
      groundNodes.

(** The body of the [setInterval] callback. *)
Definition tick `{Externals} (now : Date) (st : State) : State :=
  let gmst := gstime now in
  let satPositions := satPositions now gmst (tleData st) in
  let st := setSats satPositions st in
  let latencies := latencies (groundNodes st) satPositions in
  if (0 <? List.length latencies)%nat then
    let sorted := JS.sort sub latencies in
    let mean := d3.mean latencies in
    let median := d3.median latencies in
    let p95 := d3.quantileSorted sorted 0.95 in
    setStats {| mean := mean; median := median; p95 := p95 |} st
  else st.

(** What happens to the component: the fetch resolves, the ground-node
    effect runs at mount, a button is pressed, the interval fires. *)
Inductive Event `{Externals} : Type :=
| Fetched (text : string)
| Mounted (rnd : nat -> R)
| Start
| Stop
| Interval (now : Date).

(** An interval exists only while [running] with a non-empty [tleData]. *)
Definition step `{Externals} (ev : Event) (st : State) : State :=
  match ev with
  | Fetched text => setTleData (fetched text) st
  | Mounted rnd => setGroundNodes (fst (nodes rnd O)) st
  | Start => setRunning true st
  | Stop => setRunning false st
  | Interval now =>
      if negb (running st) || (List.length (tleData st) =? 0)%nat then st
      else tick now st
  end.

Definition run `{Externals} (evs : list Event) (st : State) : State :=
  fold_left (fun st ev => step ev st) evs st.

(** ** Reference notions used in the statements *)

(** Least and greatest element of a list of reals. *)
Definition minimum (l : list R) : R :=
  match l with
  | [] => 0
  | a :: l' => fold_left Rmin l' a
  end.

Definition maximum (l : list R) : R :=
  match l with
  | [] => 0
  | a :: l' => fold_left Rmax l' a
  end.

(** Ascending insertion sort, sum and interpolated quantile of a list of
    reals: what [sort], [d3.mean] and the d3 quantiles compute on finite
    values. *)
Fixpoint Rinsert (a : R) (l : list R) : list R :=
  match l with
  | [] => [a]
  | b :: l' => if Rltb b a then b :: Rinsert a l' else a :: l
  end.

Definition Rsort (l : list R) : list R := fold_right Rinsert [] l.

Definition total (l : list R) : R := fold_left Rplus l 0.

Definition quantileR (s : list R) (p : R) : R :=
  match List.length s with
  | O => 0
  | S n1 =>
      if (S n1 <? 2)%nat then nth 0 s 0
      else
        let i := INR n1 * p in
        let i0 := Z.to_nat (floorZ i) in
        nth i0 s 0 + (nth (i0 + 1) s 0 - nth i0 s 0) * (i - INR i0)
  end.

(** Degrees to radians, and the quantity [a] of [haversine]. *)
Definition toRad (deg : R) : R := deg * PI / 180.

Definition hav (lat1 lon1 lat2 lon2 : R) : R :=
  sin (toRad (lat2 - lat1) / 2) ^ 2 +
  cos (toRad lat1) * cos (toRad lat2) * sin (toRad (lon2 - lon1) / 2) ^ 2.

(** The distance the engine measures between a ground node and a
    satellite. *)
Definition dist (g s : Geo) : R := haversine (lat g) (lon g) (lat s) (lon s).

(** The inertial positions that propagation resolves at an instant, in the
    order of the element sets. *)
Definition resolved `{Externals} (now : Date) (tleData : list TLE)
  : list Eci :=
  flat_map
    (fun tle =>
       match position (propagate (twoline2satrec (l1 tle) (l2 tle)) now) with
       | Some pos => [pos]
       | None => []
       end)
    tleData.

(** The statistics of a list of samples, as the tick computes them. *)
Definition statsOf (samples : list num) : Stats :=
  {| mean := d3.mean samples;
     median := d3.median samples;
     p95 := d3.quantileSorted (JS.sort sub samples) 0.95 |}.

(** An element-set text of one satellite. *)
Definition one_satellite : string :=
  "SAT" ++ String newline ("L1" ++ String newline "L2").

(** A satellite library whose every propagation fails. *)
Definition decayed : Externals :=
  {| Date := unit;
     Satrec := unit;
     gstime := fun _ => 0;
     twoline2satrec := fun _ _ => tt;
     propagate := fun _ _ => {| position := None |} |}.

(** ** Further notions used in the statements *)

(** [pieces.join("\n")]. *)
Definition join_newline (pieces : list string) : string :=
  String.concat (String newline EmptyString) pieces.

(** The first and the last character of a string. *)
Definition first_char (s : string) : option ascii :=
  match s with
  | EmptyString => None
  | String c _ => Some c
  end.

Fixpoint last_char (s : string) : option ascii :=
  match s with
  | EmptyString => None
  | String c EmptyString => Some c
  | String _ rest => last_char rest
  end.

(** The non-blank lines the fetch effect groups in threes. *)
Definition lines_of (text : string) : list string :=
  filter (fun l => (0 <? String.length (trim l))%nat) (split_newline text).

(** No field of a snapshot is [undefined]: [toFixed] can be called on each
    of them. *)
Definition defined (s : Stats) : Prop :=
  mean s <> None /\ median s <> None /\ p95 s <> None.

(** The latency of one ground node, as the tick computes it. *)
Definition latency (g : Geo) (satPositions : list Geo) : num :=
  mul (div (minD g satPositions) (Fin 300000)) (Fin 1000).

(** A satellite library that resolves every element set to one position on
    the x axis, at sidereal angle 0. *)
Definition fixed_sky : Externals :=
  {| Date := unit;
     Satrec := unit;
     gstime := fun _ => 0;
     twoline2satrec := fun _ _ => tt;
     propagate := fun _ _ =>
       {| position := Some {| x := 7000; y := 0; z := 0 |} |} |}.

(** A running state that tracks one element set and has one ground node,
    with a satellite list left over from an earlier tick. *)
Definition one_node_state : State :=
  {| tleData := [{| name := "SAT"; l1 := Some "L1"%string;
                    l2 := Some "L2"%string |}];
     sats := [{| lat := 12; lon := 34 |}];
     groundNodes := [{| lat := 0; lon := 0 |}];
     stats := stats initial;
     running := true |}.

(** ** The latency engine and [d3.mean] in binary64 *)

Module B64.

Import PrimFloat.
Local Open Scope float_scope.

(** [Math.PI]. *)
Definition PI : float := 0x1.921fb54442d18p+1.

(** The functions whose results ECMAScript leaves to the implementation:
    [Math.sin], [Math.cos], [Math.atan2] and the operator [**].
    [Math.sqrt] is the IEEE 754 square root. *)
Class Math : Type :=
  { sin : float -> float;
    cos : float -> float;
    atan2 : float -> float -> float;
    pow : float -> float -> float }.

(** [{ lat, lon }], degrees. *)
Record Geo : Type := { lat : float; lon : float }.

(** The distance helper. *)
Definition haversine `{Math} (lat1 lon1 lat2 lon2 : float) : float :=
  let R := 6371 in
  let toRad := fun deg => (deg * PI) / 180 in
  let dLat := toRad (lat2 - lat1) in
  let dLon := toRad (lon2 - lon1) in
  let a :=
    pow (sin (dLat / 2)) 2 +
    cos (toRad lat1) * cos (toRad lat2) * pow (sin (dLon / 2)) 2 in
  2 * R * atan2 (sqrt a) (sqrt (1 - a)).

(** The running minimum of one ground node over the satellites. *)
Definition minD `{Math} (g : Geo) (satPositions : list Geo) : float :=
  fold_left
    (fun minD s =>
       let d := haversine (lat g) (lon g) (lat s) (lon s) in
       if d <? minD then d else minD)
    satPositions infinity.

Definition latencies `{Math} (groundNodes satPositions : list Geo)
  : list float :=
  map (fun g => (minD g satPositions / 300000) * 1000) groundNodes.

Module d3.

(** [d3.mean]: sum and count of the values that are numbers
    ([value >= value]); [undefined] without any. *)
Definition mean (values : list float) : option float :=
  let '(count, sum) :=
    fold_left
      (fun '(count, sum) value =>
         if value <=? value then (count + 1, sum + value) else (count, sum))
      values (0, 0) in
  if count =? 0 then None else Some (sum / count).

End d3.

(** The values that the mathematical library returns at the arguments
    [haversine] passes for the positions (8, 0) and (-8, -180); [atan2] is
    given on a [NaN] argument only, where ECMAScript fixes its result. *)
Definition at_antipode : Math :=
  {| sin := fun t =>
       if t =? -0x1.1df46a2529d39p-3 then -0x1.1d06c968d9e19p-3
       else if t =? -0x1.921fb54442d18p+0 then -1
       else nan;
     cos := fun t =>
       if abs t =? 0x1.1df46a2529d39p-3 then 0x1.fb046a930947ap-1 else nan;
     atan2 := fun y x => if is_nan y || is_nan x then nan else 0;
     pow := fun b e => if e =? 2 then b * b else nan |}.

End B64.

(** * Properties *)

(** ** Arithmetic of the model *)

Ltac rdec :=
  unfold Rltb, Rleb, Reqb in *;
  repeat match goal with
    | |- context [Rlt_dec ?a ?b] => destruct (Rlt_dec a b); try lra
    | |- context [Rle_dec ?a ?b] => destruct (Rle_dec a b); try lra
    | |- context [Req_dec_T ?a ?b] => destruct (Req_dec_T a b); try lra
    end.

Lemma Rltb_true (a b : R) : a < b -> Rltb a b = true.
Proof. intros; rdec. Qed.

Lemma Rltb_false (a b : R) : b <= a -> Rltb a b = false.
Proof. intros; rdec. Qed.

Lemma Rleb_true (a b : R) : a <= b -> Rleb a b = true.
Proof. intros; rdec. Qed.

Lemma Rleb_false (a b : R) : b < a -> Rleb a b = false.
Proof. intros; rdec. Qed.

Lemma floorZ_bounds (r : R) : IZR (floorZ r) <= r < IZR (floorZ r) + 1.
Proof.
  unfold floorZ. destruct (base_Int_part r) as [lo hi]. lra.
Qed.

Lemma floorZ_eq (r : R) (k : Z) : IZR k <= r < IZR k + 1 -> floorZ r = k.
Proof.
  intros [lo hi]. unfold floorZ. symmetry. apply Int_part_spec. lra.
Qed.

Lemma floorZ_nonneg (r : R) : 0 <= r -> (0 <= floorZ r)%Z.
Proof.
  intros Hr. destruct (floorZ_bounds r) as [_ hi].
  apply Z.lt_succ_r. apply lt_IZR. rewrite succ_IZR. lra.
Qed.

Lemma truncZ_nonneg (r : R) : 0 <= r -> truncZ r = floorZ r.
Proof.
  intros Hr. unfold truncZ. destruct (Rle_dec 0 r); [reflexivity | lra].
Qed.

(** The remainder of a non-negative dividend lies in [[0, b)]. *)
Lemma rem_nonneg (a b : R) : 0 <= a -> 0 < b -> 0 <= rem a b < b.
Proof.
  intros Ha Hb. unfold rem.
  assert (Hq : 0 <= a / b).
  { unfold Rdiv. apply Rmult_le_pos; [lra |].
    left. apply Rinv_0_lt_compat. lra. }
  rewrite (truncZ_nonneg _ Hq).
  destruct (floorZ_bounds (a / b)) as [lo hi].
  assert (Hab : a = b * (a / b)) by (field; lra).
  split.
  - apply Rmult_le_compat_l with (r := b) in lo; lra.
  - apply Rmult_lt_compat_l with (r := b) in hi; lra.
Qed.

Lemma toDegrees_mono (s t : R) : s <= t -> toDegrees s <= toDegrees t.
Proof.
  intros Hst. unfold toDegrees, Rdiv.
  assert (0 < / PI) by (apply Rinv_0_lt_compat, PI_RGT_0).
  apply Rmult_le_compat_r; lra.
Qed.

Lemma toDegrees_PI : toDegrees PI = 180.
Proof. unfold toDegrees. field. apply PI_neq0. Qed.

Lemma toDegrees_0 : toDegrees 0 = 0.
Proof. unfold toDegrees. field. apply PI_neq0. Qed.

Lemma toDegrees_opp (t : R) : toDegrees (- t) = - toDegrees t.
Proof. unfold toDegrees. field. apply PI_neq0. Qed.

Lemma toDegrees_scale (k : R) : toDegrees (k * PI) = k * 180.
Proof. unfold toDegrees. field. apply PI_neq0. Qed.

(** [Math.atan2] returns an angle in [(-PI, PI]]. *)
Lemma atan2_range (y x : R) : - PI < atan2 y x <= PI.
Proof.
  pose proof PI_RGT_0 as HPI.
  unfold atan2.
  destruct (Rlt_dec 0 x) as [Hx | Hx].
  - pose proof (atan_bound (y / x)). lra.
  - destruct (Rlt_dec x 0) as [Hx' | Hx'].
    + pose proof (atan_bound (y / x)) as Hb.
      destruct (Rle_dec 0 y) as [Hy | Hy].
      * assert (Hq : y / x <= 0).
        { unfold Rdiv. assert (/ x < 0) by (apply Rinv_lt_0_compat; lra). nra. }
        assert (atan (y / x) <= 0).
        { destruct Hq as [Hq | Hq].
          - left. rewrite <- atan_0. apply atan_increasing; assumption.
          - rewrite Hq, atan_0. lra. }
        lra.
      * assert (Hq : 0 < y / x).
        { unfold Rdiv. assert (/ x < 0) by (apply Rinv_lt_0_compat; lra). nra. }
        assert (0 < atan (y / x)).
        { rewrite <- atan_0. apply atan_increasing; assumption. }
        lra.
    + destruct (Rlt_dec 0 y); [lra |].
      destruct (Rlt_dec y 0); lra.
Qed.

Lemma atan2_0_neg (x : R) : x < 0 -> atan2 0 x = PI.
Proof.
  intros Hx. unfold atan2.
  destruct (Rlt_dec 0 x); [lra |].
  destruct (Rlt_dec x 0); [| lra].
  destruct (Rle_dec 0 0); [| lra].
  replace (0 / x) with 0 by (field; lra). rewrite atan_0. lra.
Qed.

Lemma atan2_0_pos (x : R) : 0 < x -> atan2 0 x = 0.
Proof.
  intros Hx. unfold atan2.
  destruct (Rlt_dec 0 x); [| lra].
  replace (0 / x) with 0 by (field; lra). apply atan_0.
Qed.

(** ** The projection (C4) *)

Lemma project_lon (gmst : R) (pos : Eci) :
  lon (project gmst pos) =
  rem (toDegrees (atan2 (y pos) (x pos)) - toDegrees gmst + 540) 360 - 180.
Proof. reflexivity. Qed.

(** A satellite on the negative x axis at sidereal angle 0 is projected to
    longitude -180. *)
Lemma project_antimeridian :
  lon (project 0 {| x := -1; y := 0; z := 0 |}) = -180.
Proof.
  rewrite project_lon. cbn [x y].
  rewrite atan2_0_neg by lra. rewrite toDegrees_PI, toDegrees_0.
  unfold rem.
  replace ((180 - 0 + 540) / 360) with 2 by field.
  rewrite truncZ_nonneg by lra.
  rewrite (floorZ_eq 2 2) by lra. lra.
Qed.

(** C4, as stated, fails: the longitude of a satellite on the negative x axis
    at sidereal angle 0 is not in [(-180, 180]]. *)
Lemma project_lon_not_left_open :
  ~ (-180 < lon (project 0 {| x := -1; y := 0; z := 0 |}) <= 180).
Proof. rewrite project_antimeridian. lra. Qed.

(** A sidereal angle beyond one turn can make the dividend of [%] negative,
    and the result then leaves [[-180, 180)] altogether. *)
Lemma project_large_gmst :
  lon (project (9 / 2 * PI) {| x := 1; y := 0; z := 0 |}) = -450.
Proof.
  rewrite project_lon. cbn [x y].
  rewrite atan2_0_pos by lra. rewrite toDegrees_0, toDegrees_scale.
  unfold rem, truncZ.
  destruct (Rle_dec 0 ((0 - 9 / 2 * 180 + 540) / 360)) as [H | _]; [lra |].
  replace (- ((0 - 9 / 2 * 180 + 540) / 360)) with (3 / 4) by field.
  change (Int_part (3 / 4)) with (floorZ (3 / 4)).
  rewrite (floorZ_eq (3 / 4) 0) by lra. simpl. lra.
Qed.

(** C4 (amended): for every inertial position and every sidereal angle of at
    most one turn (satellite.js's [gstime] returns an angle in [[0, 2 PI)]),
    the projected longitude lies in [[-180, 180)]: -180 is attained, 180 is
    not. *)
Theorem project_lon_range (gmst : R) (pos : Eci) :
  gmst <= 2 * PI ->
  -180 <= lon (project gmst pos) < 180.
Proof.
  intros Hg. rewrite project_lon.
  destruct (atan2_range (y pos) (x pos)) as [Hlo _].
  assert (H1 : -180 <= toDegrees (atan2 (y pos) (x pos))).
  { apply Rle_trans with (toDegrees (- PI)).
    - rewrite toDegrees_opp, toDegrees_PI. lra.
    - apply toDegrees_mono. lra. }
  assert (H2 : toDegrees gmst <= 360).
  { apply Rle_trans with (toDegrees (2 * PI)).
    - apply toDegrees_mono. exact Hg.
    - rewrite toDegrees_scale. lra. }
  pose proof (rem_nonneg
    (toDegrees (atan2 (y pos) (x pos)) - toDegrees gmst + 540) 360) as Hr.
  lra.
Qed.

Lemma project_lon_range_witness :
  0 <= 2 * PI /\
  -180 <= lon (project 0 {| x := -1; y := 0; z := 0 |}) < 180.
Proof.
  assert (H : 0 <= 2 * PI) by (pose proof PI_RGT_0; lra).
  split; [exact H | exact (project_lon_range 0 _ H)].
Defined.

(** ** The distance helper (C7) *)

Lemma haversine_unfold (lat1 lon1 lat2 lon2 : R) :
  haversine lat1 lon1 lat2 lon2 =
  2 * 6371 * atan2 (sqrt (hav lat1 lon1 lat2 lon2))
                   (sqrt (1 - hav lat1 lon1 lat2 lon2)).
Proof. reflexivity. Qed.

Lemma sin_half_sqr_swap (u v : R) :
  sin (toRad (v - u) / 2) ^ 2 = sin (toRad (u - v) / 2) ^ 2.
Proof.
  replace (toRad (v - u) / 2) with (- (toRad (u - v) / 2))
    by (unfold toRad; field).
  rewrite sin_neg. ring.
Qed.

Lemma hav_sym (lat1 lon1 lat2 lon2 : R) :
  hav lat1 lon1 lat2 lon2 = hav lat2 lon2 lat1 lon1.
Proof.
  unfold hav.
  rewrite (sin_half_sqr_swap lat1 lat2), (sin_half_sqr_swap lon1 lon2).
  ring.
Qed.

Lemma hav_same (lat1 lon1 : R) : hav lat1 lon1 lat1 lon1 = 0.
Proof.
  unfold hav.
  replace (toRad (lat1 - lat1) / 2) with 0 by (unfold toRad; field).
  replace (toRad (lon1 - lon1) / 2) with 0 by (unfold toRad; field).
  rewrite sin_0. ring.
Qed.

Lemma sin_half_sqr (t : R) : sin (t / 2) ^ 2 = (1 - cos t) / 2.
Proof.
  replace t with (2 * (t / 2)) at 2 by field.
  rewrite cos_2a_sin. field.
Qed.

(** In exact arithmetic both square roots of [haversine] are taken of
    numbers in [[0, 1]].  Rounding can push [a] above 1: that case is
    treated in the binary64 embedding. *)
Lemma hav_range (lat1 lon1 lat2 lon2 : R) :
  0 <= hav lat1 lon1 lat2 lon2 <= 1.
Proof.
  unfold hav.
  set (t := sin (toRad (lon2 - lon1) / 2) ^ 2).
  assert (Ht : 0 <= t <= 1).
  { unfold t. pose proof (sin2_cos2 (toRad (lon2 - lon1) / 2)) as Hsc.
    unfold Rsqr in Hsc.
    pose proof (pow2_ge_0 (sin (toRad (lon2 - lon1) / 2))).
    pose proof (pow2_ge_0 (cos (toRad (lon2 - lon1) / 2))).
    nra. }
  rewrite sin_half_sqr.
  replace (toRad (lat2 - lat1)) with (toRad lat2 - toRad lat1)
    by (unfold toRad; field).
  rewrite cos_minus.
  pose proof (sin2_cos2 (toRad lat1)) as H1.
  pose proof (sin2_cos2 (toRad lat2)) as H2.
  unfold Rsqr in H1, H2.
  set (c1 := cos (toRad lat1)) in *. set (s1 := sin (toRad lat1)) in *.
  set (c2 := cos (toRad lat2)) in *. set (s2 := sin (toRad lat2)) in *.
  pose proof (Rle_0_sqr (c1 - c2)) as Q1. pose proof (Rle_0_sqr (c1 + c2)) as Q2.
  pose proof (Rle_0_sqr (s1 - s2)) as Q3. pose proof (Rle_0_sqr (s1 + s2)) as Q4.
  unfold Rsqr in Q1, Q2, Q3, Q4.
  assert (HA : -1 <= c2 * c1 + s2 * s1 <= 1) by (split; lra).
  assert (HB : -1 <= c1 * c2 - s1 * s2 <= 1) by (split; lra).
  set (A := c2 * c1 + s2 * s1) in *.
  assert (Hc : c1 * c2 = (A + (c1 * c2 - s1 * s2)) / 2) by (unfold A; lra).
  rewrite Hc. set (B := c1 * c2 - s1 * s2) in *.
  assert (0 <= (1 - t) * (1 - A)) by (apply Rmult_le_pos; lra).
  assert (0 <= t * (1 + B)) by (apply Rmult_le_pos; lra).
  assert (0 <= (1 - t) * (1 + A)) by (apply Rmult_le_pos; lra).
  assert (0 <= t * (1 - B)) by (apply Rmult_le_pos; lra).
  split; lra.
Qed.

(** C7: the great-circle distance with Earth radius 6371 km is symmetric,
    and the distance of a position to itself is 0. *)
Theorem haversine_symmetric_zero (a b : Geo) :
  haversine (lat a) (lon a) (lat b) (lon b) =
  haversine (lat b) (lon b) (lat a) (lon a)
  /\ haversine (lat a) (lon a) (lat a) (lon a) = 0.
Proof.
  split.
  - rewrite !haversine_unfold.
    rewrite (hav_sym (lat a) (lon a) (lat b) (lon b)). reflexivity.
  - rewrite haversine_unfold, hav_same.
    rewrite Rminus_0_r, sqrt_0, sqrt_1, atan2_0_pos by lra. ring.
Qed.

(** In exact arithmetic distances are never negative and never exceed half
    the circumference. *)
Lemma haversine_bounds (lat1 lon1 lat2 lon2 : R) :
  0 <= haversine lat1 lon1 lat2 lon2 <= 6371 * PI.
Proof.
  rewrite haversine_unfold.
  pose proof (hav_range lat1 lon1 lat2 lon2) as [Hlo Hhi].
  pose proof PI_RGT_0 as HPI.
  match goal with
  | |- context [atan2 ?u ?v] =>
      assert (Hu : 0 <= u) by apply sqrt_pos;
      assert (Hv : 0 <= v) by apply sqrt_pos;
      assert (Ha : 0 <= atan2 u v <= PI / 2);
      [ | lra ]
  end.
  unfold atan2.
  match goal with
  | |- context [Rlt_dec 0 ?v] => destruct (Rlt_dec 0 v) as [Hv' | Hv']
  end.
  - match goal with
    | |- context [atan ?q] =>
        assert (Hq : 0 <= q);
        [ unfold Rdiv; apply Rmult_le_pos;
          [ assumption | left; apply Rinv_0_lt_compat; assumption ]
        | pose proof (atan_bound q);
          destruct Hq as [Hq | Hq];
          [ pose proof (atan_increasing 0 q Hq) as Hi;
            rewrite atan_0 in Hi; lra
          | rewrite <- Hq, atan_0; lra ] ]
    end.
  - match goal with
    | |- context [Rlt_dec ?v 0] => destruct (Rlt_dec v 0); [lra |]
    end.
    match goal with
    | |- context [Rlt_dec 0 ?u] => destruct (Rlt_dec 0 u); [lra |]
    end.
    match goal with
    | |- context [Rlt_dec ?u 0] => destruct (Rlt_dec u 0); lra
    end.
Qed.

(** ** Least and greatest element *)

Lemma fold_Rmin_le (l : list R) (m : R) :
  fold_left Rmin l m <= m /\ forall v, In v l -> fold_left Rmin l m <= v.
Proof.
  revert m. induction l as [| a l IH]; intros m; simpl.
  - split; [lra | intros v []].
  - destruct (IH (Rmin m a)) as [H1 H2].
    pose proof (Rmin_l m a). pose proof (Rmin_r m a).
    split; [lra |]. intros v [<- | Hv]; [lra | auto].
Qed.

Lemma fold_Rmin_In (l : list R) (m : R) :
  fold_left Rmin l m = m \/ In (fold_left Rmin l m) l.
Proof.
  revert m. induction l as [| a l IH]; intros m; simpl.
  - now left.
  - destruct (IH (Rmin m a)) as [H | H]; [| now right; right].
    rewrite H. unfold Rmin. destruct (Rle_dec m a); [now left | now right; left].
Qed.

Lemma fold_Rmax_ge (l : list R) (m : R) :
  m <= fold_left Rmax l m /\ forall v, In v l -> v <= fold_left Rmax l m.
Proof.
  revert m. induction l as [| a l IH]; intros m; simpl.
  - split; [lra | intros v []].
  - destruct (IH (Rmax m a)) as [H1 H2].
    pose proof (Rmax_l m a). pose proof (Rmax_r m a).
    split; [lra |]. intros v [<- | Hv]; [lra | auto].
Qed.

Lemma fold_Rmax_In (l : list R) (m : R) :
  fold_left Rmax l m = m \/ In (fold_left Rmax l m) l.
Proof.
  revert m. induction l as [| a l IH]; intros m; simpl.
  - now left.
  - destruct (IH (Rmax m a)) as [H | H]; [| now right; right].
    rewrite H. unfold Rmax. destruct (Rle_dec m a); [now right; left | now left].
Qed.

Lemma minimum_le (l : list R) (v : R) : In v l -> minimum l <= v.
Proof.
  destruct l as [| a l]; [intros [] |]. simpl.
  destruct (fold_Rmin_le l a) as [H1 H2].
  intros [<- | Hv]; [exact H1 | auto].
Qed.

Lemma minimum_In (l : list R) : l <> [] -> In (minimum l) l.
Proof.
  destruct l as [| a l]; [congruence |]. intros _. simpl.
  destruct (fold_Rmin_In l a) as [-> | H]; [now left | now right].
Qed.

Lemma maximum_ge (l : list R) (v : R) : In v l -> v <= maximum l.
Proof.
  destruct l as [| a l]; [intros [] |]. simpl.
  destruct (fold_Rmax_ge l a) as [H1 H2].
  intros [<- | Hv]; [exact H1 | auto].
Qed.

Lemma maximum_In (l : list R) : l <> [] -> In (maximum l) l.
Proof.
  destruct l as [| a l]; [congruence |]. intros _. simpl.
  destruct (fold_Rmax_In l a) as [-> | H]; [now left | now right].
Qed.

(** ** The latency engine (C1) *)

Lemma lt_Fin_PInf (d : R) : lt (Fin d) PInf = true.
Proof. reflexivity. Qed.

Lemma minD_step (g : Geo) (m : R) (s : Geo) :
  (let d := Fin (haversine (lat g) (lon g) (lat s) (lon s)) in
   if lt d (Fin m) then d else Fin m) = Fin (Rmin m (dist g s)).
Proof.
  cbv zeta. fold (dist g s). unfold lt, Rltb, Rmin.
  destruct (Rlt_dec (dist g s) m), (Rle_dec m (dist g s));
    try reflexivity; lra.
Qed.

Lemma minD_fold (g : Geo) (sats : list Geo) (m : R) :
  fold_left
    (fun minD s =>
       let d := Fin (haversine (lat g) (lon g) (lat s) (lon s)) in
       if lt d minD then d else minD)
    sats (Fin m)
  = Fin (fold_left Rmin (map (dist g) sats) m).
Proof.
  revert m. induction sats as [| s sats IH]; intros m.
  - reflexivity.
  - cbn [fold_left map]. rewrite minD_step. apply IH.
Qed.

(** With at least one satellite the running minimum is the least distance. *)
Lemma minD_nonempty (g : Geo) (sats : list Geo) :
  sats <> [] -> minD g sats = Fin (minimum (map (dist g) sats)).
Proof.
  destruct sats as [| s sats]; [congruence |]. intros _.
  unfold minD. cbn [fold_left map minimum].
  apply (minD_fold g sats (dist g s)).
Qed.

Lemma minD_empty (g : Geo) : minD g [] = PInf.
Proof. reflexivity. Qed.

Lemma latency_of_Fin (d : R) :
  mul (div (Fin d) (Fin 300000)) (Fin 1000) = Fin (d / 300000 * 1000).
Proof.
  unfold div, Reqb. destruct (Req_dec_T 300000 0); [lra | reflexivity].
Qed.

Lemma latency_of_PInf : mul (div PInf (Fin 300000)) (Fin 1000) = PInf.
Proof.
  unfold div, mul, scale_inf. rewrite Rltb_false by lra.
  rewrite Rltb_true by lra. reflexivity.
Qed.

(** C1 (amended): with an empty satellite list the running minimum is never
    lowered, and the latency of every ground node is [Infinity]: not a
    finite number, and not zero. *)
Theorem latencies_no_satellite (groundNodes : list Geo) :
  latencies groundNodes [] = map (fun _ => PInf) groundNodes
  /\ Forall (fun v => isFinite v = false /\ v <> Fin 0)
            (latencies groundNodes []).
Proof.
  assert (H : latencies groundNodes [] = map (fun _ => PInf) groundNodes).
  { unfold latencies. apply map_ext. intros g.
    rewrite minD_empty. apply latency_of_PInf. }
  split; [exact H |].
  rewrite H. apply Forall_forall. intros v Hv.
  apply in_map_iff in Hv. destruct Hv as [_ [<- _]].
  split; [reflexivity | discriminate].
Qed.

Lemma latencies_one_node (g : Geo) : latencies [g] [] = [PInf].
Proof.
  unfold latencies. cbn [map]. rewrite minD_empty, latency_of_PInf.
  reflexivity.
Qed.

(** C1, as stated, fails: without any satellite the sample of a ground node
    is the number [Infinity], and the aggregation does not leave it out:
    d3 counts it, and the mean is taken over it. *)
Lemma no_satellite_sample_counted :
  let samples := latencies [{| lat := 0; lon := 0 |}] [] in
  samples = [PInf]
  /\ d3.numbers samples <> []
  /\ d3.mean samples = Some PInf.
Proof.
  cbv zeta. rewrite latencies_one_node.
  split; [reflexivity |]. split; [discriminate |].
  unfold d3.mean. cbn. rewrite Rltb_false; [reflexivity |].
  pose proof (pos_INR 1). simpl in *. lra.
Qed.

(** ** Sorting finite values *)

Section SortFinite.

Variable compare : num -> num -> num.
Hypothesis compare_Fin :
  forall a b, gt (compare (Fin a) (Fin b)) (Fin 0) = Rltb b a.

Lemma insert_Fin (a : R) (l : list R) :
  JS.insert compare (Fin a) (map Fin l) = map Fin (Rinsert a l).
Proof.
  induction l as [| b l IH]; [reflexivity |].
  cbn [map JS.insert Rinsert]. rewrite compare_Fin.
  destruct (Rltb b a); [| reflexivity].
  rewrite IH. reflexivity.
Qed.

Lemma sort_Fin (l : list R) :
  JS.sort compare (map Fin l) = map Fin (Rsort l).
Proof.
  induction l as [| a l IH]; [reflexivity |].
  unfold JS.sort, Rsort in *. cbn [map fold_right].
  rewrite IH. apply insert_Fin.
Qed.

End SortFinite.

Lemma sub_compare_Fin (a b : R) :
  gt (sub (Fin a) (Fin b)) (Fin 0) = Rltb b a.
Proof. cbn. rdec. Qed.

Lemma ascending_compare_Fin (a b : R) :
  gt (d3.ascending (Fin a) (Fin b)) (Fin 0) = Rltb b a.
Proof.
  unfold d3.ascending, gt, ge. cbn [lt le].
  unfold Rltb, Rleb.
  destruct (Rlt_dec a b), (Rlt_dec b a), (Rle_dec b a); cbn;
    try reflexivity; try lra; rdec; reflexivity.
Qed.

Lemma Rinsert_perm (a : R) (l : list R) : Permutation (a :: l) (Rinsert a l).
Proof.
  induction l as [| b l IH]; [apply Permutation_refl |].
  cbn [Rinsert]. destruct (Rltb b a).
  - apply perm_trans with (b :: a :: l); [apply perm_swap |].
    apply perm_skip. exact IH.
  - apply Permutation_refl.
Qed.

Lemma Rsort_perm (l : list R) : Permutation l (Rsort l).
Proof.
  induction l as [| a l IH]; [apply perm_nil |].
  unfold Rsort in *. cbn [fold_right].
  apply perm_trans with (a :: fold_right Rinsert [] l).
  - apply perm_skip. exact IH.
  - apply Rinsert_perm.
Qed.

Lemma Rinsert_sorted (a : R) (l : list R) :
  StronglySorted Rle l -> StronglySorted Rle (Rinsert a l).
Proof.
  induction l as [| b l IH]; intros Hs.
  - cbn. constructor; constructor.
  - apply StronglySorted_inv in Hs. destruct Hs as [Hs Hb].
    cbn [Rinsert]. unfold Rltb. destruct (Rlt_dec b a) as [Hba | Hba].
    + constructor; [auto |].
      apply (Permutation_Forall (Rinsert_perm a l)).
      constructor; [lra | exact Hb].
    + constructor.
      * constructor; assumption.
      * constructor; [lra |].
        apply Forall_impl with (P := Rle b); [intros; lra | exact Hb].
Qed.

Lemma Rsort_sorted (l : list R) : StronglySorted Rle (Rsort l).
Proof.
  induction l as [| a l IH]; [constructor |].
  unfold Rsort in *. cbn [fold_right]. apply Rinsert_sorted. exact IH.
Qed.

Lemma Rsort_length (l : list R) : List.length (Rsort l) = List.length l.
Proof. symmetry. apply Permutation_length, Rsort_perm. Qed.

Lemma Rsort_In (l : list R) (v : R) : In v (Rsort l) -> In v l.
Proof.
  apply Permutation_in, Permutation_sym, Rsort_perm.
Qed.

Lemma sorted_nth_le (s : list R) :
  StronglySorted Rle s ->
  forall i j, (i <= j)%nat -> (j < List.length s)%nat ->
              nth i s 0 <= nth j s 0.
Proof.
  induction 1 as [| a s Hs IH Ha]; intros i j Hij Hj.
  - simpl in Hj. lia.
  - destruct j as [| j].
    + assert (i = O) by lia. subst. lra.
    + simpl in Hj. destruct i as [| i].
      * cbn [nth]. rewrite Forall_forall in Ha. apply Ha.
        apply nth_In. lia.
      * cbn [nth]. apply IH; lia.
Qed.

Lemma nth_Fin (s : list R) (i : nat) :
  (i < List.length s)%nat -> nth i (map Fin s) NaN = Fin (nth i s 0).
Proof.
  intros Hi. rewrite (nth_indep (map Fin s) NaN (Fin 0)).
  - apply map_nth.
  - rewrite length_map. exact Hi.
Qed.

(** The interpolation index [i0 = Math.floor((n - 1) * p)] for [0 < p < 1]:
    it is below [n - 1], and [i - i0] is a fraction in [[0, 1)]. *)
Lemma index_bounds (n1 : nat) (p : R) :
  0 < p < 1 -> (1 <= n1)%nat ->
  let i := INR n1 * p in
  let i0 := Z.to_nat (floorZ i) in
  INR i0 <= i < INR i0 + 1 /\ (i0 < n1)%nat.
Proof.
  intros Hp Hn i i0.
  assert (Hn1 : 1 <= INR n1) by (apply (le_INR 1); exact Hn).
  assert (Hi : 0 <= i < INR n1) by (unfold i; nra).
  assert (Hz : (0 <= floorZ i)%Z) by (apply floorZ_nonneg; lra).
  assert (Hi0 : INR i0 = IZR (floorZ i)).
  { unfold i0. rewrite INR_IZR_INZ, Z2Nat.id by exact Hz. reflexivity. }
  pose proof (floorZ_bounds i) as Hb. rewrite <- Hi0 in Hb.
  split; [exact Hb |]. apply INR_lt. lra.
Qed.

(** ** The d3 reductions on finite values *)

Lemma ge_Fin_refl (v : R) : ge (Fin v) (Fin v) = true.
Proof. cbn. apply Rleb_true. lra. Qed.

Lemma numbers_Fin (vs : list R) : d3.numbers (map Fin vs) = map Fin vs.
Proof.
  unfold d3.numbers. induction vs as [| v vs IH]; [reflexivity |].
  cbn [map filter]. rewrite ge_Fin_refl, IH. reflexivity.
Qed.

Lemma mean_fold_Fin (vs : list R) (count : nat) (sum : R) :
  fold_left
    (fun '(count, sum) value =>
       if ge value value then (S count, add sum value) else (count, sum))
    (map Fin vs) (count, Fin sum)
  = ((count + List.length vs)%nat, Fin (fold_left Rplus vs sum)).
Proof.
  revert count sum. induction vs as [| v vs IH]; intros count sum.
  - cbn. rewrite Nat.add_0_r. reflexivity.
  - cbn [map fold_left List.length]. rewrite ge_Fin_refl. cbn [add].
    rewrite IH. f_equal. lia.
Qed.

Lemma mean_Fin (vs : list R) :
  vs <> [] ->
  d3.mean (map Fin vs) = Some (Fin (total vs / INR (List.length vs))).
Proof.
  intros Hne. unfold d3.mean. rewrite mean_fold_Fin. cbn [Nat.add].
  destruct vs as [| v vs]; [congruence |].
  cbn [List.length]. unfold div.
  assert (0 < INR (S (List.length vs))) by (apply lt_0_INR; lia).
  unfold Reqb. destruct (Req_dec_T (INR (S (List.length vs))) 0); [lra |].
  reflexivity.
Qed.

Lemma max_fold_Fin (l : list R) (m : R) :
  fold_left
    (fun m value =>
       match m with
       | None => if ge value value then Some value else None
       | Some mv => if lt mv value then Some value else m
       end)
    (map Fin l) (Some (Fin m))
  = Some (Fin (fold_left Rmax l m)).
Proof.
  revert m. induction l as [| v l IH]; intros m; [reflexivity |].
  cbn [map fold_left lt].
  replace (if Rltb m v then Some (Fin v) else Some (Fin m))
    with (Some (Fin (Rmax m v))); [apply IH |].
  unfold Rltb, Rmax.
  destruct (Rlt_dec m v), (Rle_dec m v); try reflexivity; try lra.
  do 2 f_equal. lra.
Qed.

Lemma min_fold_Fin (l : list R) (m : R) :
  fold_left
    (fun m value =>
       match m with
       | None => if ge value value then Some value else None
       | Some mv => if gt mv value then Some value else m
       end)
    (map Fin l) (Some (Fin m))
  = Some (Fin (fold_left Rmin l m)).
Proof.
  revert m. induction l as [| v l IH]; intros m; [reflexivity |].
  cbn [map fold_left gt lt].
  replace (if Rltb v m then Some (Fin v) else Some (Fin m))
    with (Some (Fin (Rmin m v))); [apply IH |].
  unfold Rltb, Rmin.
  destruct (Rlt_dec v m), (Rle_dec m v); try reflexivity; lra.
Qed.

Lemma max_Fin (l : list R) :
  l <> [] -> d3.max (map Fin l) = Some (Fin (maximum l)).
Proof.
  destruct l as [| a l]; [congruence |]. intros _.
  unfold d3.max. cbn [map fold_left]. rewrite ge_Fin_refl.
  apply max_fold_Fin.
Qed.

Lemma min_Fin (l : list R) :
  l <> [] -> d3.min (map Fin l) = Some (Fin (minimum l)).
Proof.
  destruct l as [| a l]; [congruence |]. intros _.
  unfold d3.min. cbn [map fold_left]. rewrite ge_Fin_refl.
  apply min_fold_Fin.
Qed.

(** In a sorted list the greatest of the first [k + 1] elements is the
    element of index [k], and the least from index [k] on is that element. *)
Lemma maximum_firstn_sorted (s : list R) (k : nat) :
  StronglySorted Rle s -> (k < List.length s)%nat ->
  maximum (firstn (k + 1) s) = nth k s 0.
Proof.
  intros Hs Hk.
  assert (Hlen : List.length (firstn (k + 1) s) = (k + 1)%nat).
  { rewrite length_firstn. lia. }
  assert (Hne : firstn (k + 1) s <> []).
  { intros E. rewrite E in Hlen. simpl in Hlen. lia. }
  apply Rle_antisym.
  - destruct (In_nth _ _ 0 (maximum_In _ Hne)) as [j [Hj Ej]].
    rewrite <- Ej, nth_firstn.
    rewrite Hlen in Hj.
    destruct (Nat.ltb_spec j (k + 1)); [| lia].
    apply sorted_nth_le; [exact Hs | lia | exact Hk].
  - apply maximum_ge.
    replace (nth k s 0) with (nth k (firstn (k + 1) s) 0).
    + apply nth_In. lia.
    + rewrite nth_firstn. destruct (Nat.ltb_spec k (k + 1)); [reflexivity | lia].
Qed.

Lemma minimum_skipn_sorted (s : list R) (k : nat) :
  StronglySorted Rle s -> (k < List.length s)%nat ->
  minimum (skipn k s) = nth k s 0.
Proof.
  intros Hs Hk.
  assert (Hlen : List.length (skipn k s) = (List.length s - k)%nat)
    by apply length_skipn.
  assert (Hne : skipn k s <> []).
  { intros E. rewrite E in Hlen. simpl in Hlen. lia. }
  apply Rle_antisym.
  - apply minimum_le.
    replace (nth k s 0) with (nth 0 (skipn k s) 0).
    + apply nth_In. lia.
    + rewrite nth_skipn. f_equal. lia.
  - destruct (In_nth _ _ 0 (minimum_In _ Hne)) as [j [Hj Ej]].
    rewrite <- Ej, nth_skipn.
    apply sorted_nth_le; [exact Hs | lia | lia].
Qed.

(** ** The quantiles *)

Lemma quantileSorted_Fin (s : list R) (p : R) :
  s <> [] -> 0 < p < 1 ->
  d3.quantileSorted (map Fin s) p = Some (Fin (quantileR s p)).
Proof.
  intros Hne Hp. unfold d3.quantileSorted, quantileR. rewrite length_map.
  destruct (List.length s) as [| n1] eqn:En.
  { destruct s; [congruence | discriminate]. }
  rewrite Rleb_false by lra. cbn [orb].
  destruct (Nat.ltb_spec (S n1) 2) as [Hlt | Hge].
  - rewrite nth_Fin by lia. reflexivity.
  - rewrite Rleb_false by lra.
    destruct (index_bounds n1 p Hp) as [_ Hi0]; [lia |].
    cbv zeta in Hi0 |- *.
    rewrite !nth_Fin by lia. reflexivity.
Qed.

Lemma quantile_Fin (vs : list R) (p : R) :
  vs <> [] -> 0 < p < 1 ->
  d3.quantile (map Fin vs) p = Some (Fin (quantileR (Rsort vs) p)).
Proof.
  intros Hne Hp. unfold d3.quantile, quantileR. cbv zeta.
  rewrite numbers_Fin, length_map, Rsort_length.
  destruct (List.length vs) as [| n1] eqn:En.
  { destruct vs; [congruence | discriminate]. }
  rewrite Rleb_false by lra. cbn [orb].
  destruct (Nat.ltb_spec (S n1) 2) as [Hlt | Hge].
  - destruct vs as [| v [| w vs]]; [congruence | | simpl in En; lia].
    rewrite min_Fin by discriminate. reflexivity.
  - rewrite Rleb_false by lra.
    destruct (index_bounds n1 p Hp) as [_ Hi0]; [lia |].
    cbv zeta in Hi0.
    unfold d3.quickselect.
    rewrite (sort_Fin d3.ascending ascending_compare_Fin).
    rewrite firstn_map, skipn_map.
    pose proof (Rsort_sorted vs) as Hs.
    pose proof (Rsort_length vs) as Hl. rewrite En in Hl.
    set (i0 := Z.to_nat (floorZ (INR n1 * p))) in *.
    rewrite max_Fin, min_Fin.
    + rewrite maximum_firstn_sorted, minimum_skipn_sorted by (auto; lia).
      reflexivity.
    + intros E. apply (f_equal (@List.length R)) in E.
      rewrite length_skipn in E. simpl in E. lia.
    + intros E. apply (f_equal (@List.length R)) in E.
      rewrite length_firstn in E. simpl in E. lia.
Qed.

(** A quantile of order [0 < p < 1] lies between any bounds of the list. *)
Lemma quantileR_bounds (s : list R) (p lo hi : R) :
  s <> [] -> 0 < p < 1 -> (forall v, In v s -> lo <= v <= hi) ->
  lo <= quantileR s p <= hi.
Proof.
  intros Hne Hp Hb. unfold quantileR.
  destruct (List.length s) as [| n1] eqn:En.
  { destruct s; [congruence | discriminate]. }
  destruct (Nat.ltb_spec (S n1) 2) as [Hlt | Hge].
  - apply Hb, nth_In. lia.
  - destruct (index_bounds n1 p Hp) as [Hf Hi0]; [lia |].
    cbv zeta in Hf, Hi0 |- *.
    set (i0 := Z.to_nat (floorZ (INR n1 * p))) in *.
    assert (H0 : lo <= nth i0 s 0 <= hi) by (apply Hb, nth_In; lia).
    assert (H1 : lo <= nth (i0 + 1) s 0 <= hi) by (apply Hb, nth_In; lia).
    set (f := INR n1 * p - INR i0) in *.
    assert (Hf' : 0 <= f < 1) by (unfold f; lra).
    replace (nth i0 s 0 + (nth (i0 + 1) s 0 - nth i0 s 0) * f)
      with ((1 - f) * nth i0 s 0 + f * nth (i0 + 1) s 0) by ring.
    split; nra.
Qed.

(** On a sorted list the quantile grows with its order. *)
Lemma quantileR_mono (s : list R) (p q : R) :
  StronglySorted Rle s -> 0 < p -> p <= q -> q < 1 ->
  quantileR s p <= quantileR s q.
Proof.
  intros Hs Hp Hpq Hq. unfold quantileR.
  destruct (List.length s) as [| n1] eqn:En; [lra |].
  destruct (Nat.ltb_spec (S n1) 2) as [Hlt | Hge]; [lra |].
  destruct (index_bounds n1 p) as [Hf Ha]; [lra | lia |].
  destruct (index_bounds n1 q) as [Hg Hb]; [lra | lia |].
  cbv zeta in Hf, Ha, Hg, Hb |- *.
  set (a := Z.to_nat (floorZ (INR n1 * p))) in *.
  set (b := Z.to_nat (floorZ (INR n1 * q))) in *.
  assert (Hn1 : 0 <= INR n1) by apply pos_INR.
  assert (Hij : INR n1 * p <= INR n1 * q) by (apply Rmult_le_compat_l; lra).
  assert (Hab : (a <= b)%nat).
  { apply Nat.lt_succ_r. apply INR_lt. rewrite S_INR. lra. }
  pose proof (sorted_nth_le s Hs a (a + 1)) as Sa.
  pose proof (sorted_nth_le s Hs b (b + 1)) as Sb.
  assert (Sa' : nth a s 0 <= nth (a + 1) s 0) by (apply Sa; lia).
  assert (Sb' : nth b s 0 <= nth (b + 1) s 0) by (apply Sb; lia).
  destruct (Nat.eq_dec a b) as [Eab | Nab].
  - rewrite <- Eab in *. nra.
  - assert (Hmid : nth (a + 1) s 0 <= nth b s 0)
      by (apply sorted_nth_le; [exact Hs | lia | lia]).
    nra.
Qed.

(** ** The aggregation (C6) *)

(** C6 (amended): for every non-empty list of finite, non-negative latency
    values, median and 95th percentile are finite, the median lies between
    the least and the greatest value, and the 95th percentile is at least
    the median (in particular when two values differ) and at most the
    greatest value.  Nothing is stated of the mean, which is a rounded sum
    divided by the count. *)
Theorem median_p95_bounds (vs : list R) :
  vs <> [] ->
  Forall (fun v => 0 <= v) vs ->
  let values := map Fin vs in
  exists median p95 : R,
    d3.median values = Some (Fin median)
    /\ d3.quantileSorted (JS.sort sub values) 0.95 = Some (Fin p95)
    /\ minimum vs <= median <= maximum vs
    /\ median <= p95 <= maximum vs.
Proof.
  intros Hne _ values.
  assert (Hs : Rsort vs <> []).
  { intros E. apply (f_equal (@List.length R)) in E.
    rewrite Rsort_length in E. destruct vs; [congruence | discriminate]. }
  assert (Hb : forall v, In v (Rsort vs) -> minimum vs <= v <= maximum vs).
  { intros v Hv. apply Rsort_In in Hv.
    split; [now apply minimum_le | now apply maximum_ge]. }
  exists (quantileR (Rsort vs) 0.5), (quantileR (Rsort vs) 0.95).
  split; [unfold d3.median; apply quantile_Fin; [exact Hne | lra] |].
  split.
  { unfold values. rewrite (sort_Fin sub sub_compare_Fin).
    apply quantileSorted_Fin; [exact Hs | lra]. }
  split; [apply quantileR_bounds; [exact Hs | lra | exact Hb] |].
  split.
  - apply quantileR_mono; [apply Rsort_sorted | lra | lra | lra].
  - apply (quantileR_bounds (Rsort vs) 0.95 (minimum vs) (maximum vs));
      [exact Hs | lra | exact Hb].
Qed.

Lemma median_p95_bounds_witness :
  exists median p95 : R,
    d3.median [Fin 1; Fin 3; Fin 3; Fin 0] = Some (Fin median)
    /\ d3.quantileSorted (JS.sort sub [Fin 1; Fin 3; Fin 3; Fin 0]) 0.95
       = Some (Fin p95)
    /\ minimum [1; 3; 3; 0] <= median <= maximum [1; 3; 3; 0]
    /\ median <= p95 <= maximum [1; 3; 3; 0].
Proof.
  assert (Hne : [1; 3; 3; 0] <> []) by discriminate.
  assert (Hpos : Forall (fun v => 0 <= v) [1; 3; 3; 0])
    by (repeat constructor; lra).
  exact (median_p95_bounds [1; 3; 3; 0] Hne Hpos).
Defined.

(** ** Samples that are all [Infinity] *)

Lemma firstn_repeat_PInf (k n : nat) :
  firstn k (repeat PInf n) = repeat PInf (Nat.min k n).
Proof.
  revert n. induction k as [| k IH]; intros [| n]; cbn; try reflexivity.
  rewrite IH. reflexivity.
Qed.

Lemma skipn_repeat_PInf (k n : nat) :
  skipn k (repeat PInf n) = repeat PInf (n - k).
Proof.
  revert n. induction k as [| k IH]; intros [| n]; cbn; try reflexivity.
  apply IH.
Qed.

Lemma nth_repeat_PInf (i n : nat) :
  (i < n)%nat -> nth i (repeat PInf n) NaN = PInf.
Proof.
  revert n. induction i as [| i IH]; intros [| n] Hi; cbn; try lia.
  - reflexivity.
  - apply IH. lia.
Qed.

Lemma numbers_repeat_PInf (n : nat) :
  d3.numbers (repeat PInf n) = repeat PInf n.
Proof.
  unfold d3.numbers. induction n as [| n IH]; [reflexivity |].
  cbn [repeat filter]. cbn [ge le]. rewrite IH. reflexivity.
Qed.

Lemma sort_repeat_PInf (compare : num -> num -> num) (n : nat) :
  gt (compare PInf PInf) (Fin 0) = false ->
  JS.sort compare (repeat PInf n) = repeat PInf n.
Proof.
  intros Hc. unfold JS.sort. induction n as [| n IH]; [reflexivity |].
  cbn [repeat fold_right]. rewrite IH.
  destruct n as [| n]; [reflexivity |].
  cbn [repeat JS.insert]. rewrite Hc. reflexivity.
Qed.

Lemma max_repeat_PInf (n : nat) : d3.max (repeat PInf (S n)) = Some PInf.
Proof.
  unfold d3.max. cbn [repeat fold_left ge le].
  induction n as [| n IH]; [reflexivity |].
  cbn [repeat fold_left lt]. exact IH.
Qed.

Lemma min_repeat_PInf (n : nat) : d3.min (repeat PInf (S n)) = Some PInf.
Proof.
  unfold d3.min. cbn [repeat fold_left ge le].
  induction n as [| n IH]; [reflexivity |].
  cbn [repeat fold_left gt lt]. exact IH.
Qed.

Lemma mean_fold_PInf (n count : nat) :
  fold_left
    (fun '(count, sum) value =>
       if ge value value then (S count, add sum value) else (count, sum))
    (repeat PInf n) (count, PInf)
  = ((count + n)%nat, PInf).
Proof.
  revert count. induction n as [| n IH]; intros count.
  - cbn. rewrite Nat.add_0_r. reflexivity.
  - cbn [repeat fold_left ge le add]. rewrite IH. f_equal. lia.
Qed.

Lemma mean_repeat_PInf (n : nat) :
  d3.mean (repeat PInf (S n)) = Some PInf.
Proof.
  unfold d3.mean. cbn [repeat fold_left ge le add].
  rewrite mean_fold_PInf. cbn [Nat.add div].
  rewrite Rltb_false; [reflexivity |]. apply pos_INR.
Qed.

(** The interpolation between two infinities is [Infinity - Infinity]. *)
Lemma interpolate_PInf (f : R) :
  add PInf (mul (sub PInf PInf) (Fin f)) = NaN.
Proof. reflexivity. Qed.

Lemma median_repeat_PInf (n : nat) :
  d3.median (repeat PInf (S (S n))) = Some NaN.
Proof.
  unfold d3.median, d3.quantile. cbv zeta.
  rewrite numbers_repeat_PInf, repeat_length.
  rewrite Rleb_false by lra. cbn [Nat.ltb Nat.leb orb].
  rewrite Rleb_false by lra.
  destruct (index_bounds (S n) 0.5) as [_ Hi0]; [lra | lia |].
  cbv zeta in Hi0.
  set (i0 := Z.to_nat (floorZ (INR (S n) * 0.5))) in *.
  unfold d3.quickselect.
  rewrite sort_repeat_PInf by (cbn; apply Rltb_false; lra).
  rewrite firstn_repeat_PInf, skipn_repeat_PInf.
  replace (Nat.min (i0 + 1) (S (S n))) with (S i0) by lia.
  replace (S (S n) - (i0 + 1))%nat with (S (n - i0)) by lia.
  rewrite max_repeat_PInf, min_repeat_PInf. reflexivity.
Qed.

Lemma p95_repeat_PInf (n : nat) :
  d3.quantileSorted (JS.sort sub (repeat PInf (S (S n)))) 0.95 = Some NaN.
Proof.
  rewrite sort_repeat_PInf by reflexivity.
  unfold d3.quantileSorted. rewrite repeat_length.
  rewrite Rleb_false by lra. cbn [Nat.ltb Nat.leb orb].
  rewrite Rleb_false by lra.
  destruct (index_bounds (S n) 0.95) as [_ Hi0]; [lra | lia |].
  cbv zeta in Hi0 |- *.
  rewrite !nth_repeat_PInf by lia. reflexivity.
Qed.

Lemma latencies_no_satellite_repeat (groundNodes : list Geo) :
  latencies groundNodes [] = repeat PInf (List.length groundNodes).
Proof.
  rewrite <- map_const. unfold latencies. apply map_ext. intros g.
  rewrite minD_empty. apply latency_of_PInf.
Qed.

(** Why the values are taken finite: on the samples the engine produces for
    two ground nodes without any satellite, the median of two infinities is
    [NaN], and no comparison with [NaN] holds. *)
Lemma median_of_infinities_unordered :
  let values :=
    latencies [{| lat := 0; lon := 0 |}; {| lat := 45; lon := 45 |}] [] in
  values = [PInf; PInf]
  /\ d3.median values = Some NaN
  /\ le (number (d3.min values)) (number (d3.median values)) = false.
Proof.
  cbv zeta. rewrite latencies_no_satellite_repeat. cbn [List.length repeat].
  pose proof (median_repeat_PInf 0) as Hm. cbn [repeat] in Hm.
  rewrite Hm. repeat split; reflexivity.
Qed.

(** ** The tick (C2, C8) *)

Section Tick.

Context `{E : Externals}.

Lemma satPositions_resolved (now : Date) (gmst : R) (tles : list TLE) :
  satPositions now gmst tles = map (project gmst) (resolved now tles).
Proof.
  unfold satPositions, resolved.
  induction tles as [| tle tles IH]; [reflexivity |].
  cbn [map filter_Boolean flat_map].
  destruct (position (propagate (twoline2satrec (l1 tle) (l2 tle)) now));
    cbn [filter_Boolean app map]; rewrite IH; reflexivity.
Qed.

Lemma resolved_length (now : Date) (tles : list TLE) :
  (List.length (resolved now tles) <= List.length tles)%nat.
Proof.
  unfold resolved. induction tles as [| tle tles IH]; [apply Nat.le_refl |].
  cbn [flat_map List.length].
  destruct (position (propagate (twoline2satrec (l1 tle) (l2 tle)) now));
    cbn [app List.length]; lia.
Qed.

Lemma resolved_none (now : Date) (tles : list TLE) :
  (forall tle, In tle tles ->
     position (propagate (twoline2satrec (l1 tle) (l2 tle)) now) = None) ->
  resolved now tles = [].
Proof.
  unfold resolved. induction tles as [| tle tles IH]; intros Habs.
  - reflexivity.
  - cbn [flat_map]. rewrite (Habs tle (or_introl eq_refl)).
    apply IH. intros t Ht. apply Habs. now right.
Qed.

Lemma tick_sats (now : Date) (st : State) :
  sats (tick now st) = satPositions now (gstime now) (tleData st).
Proof.
  unfold tick. cbv zeta.
  destruct (0 <? _)%nat; reflexivity.
Qed.

(** With at least one ground node the published statistics are those of
    the latencies to the satellite positions published by the same tick. *)
Lemma tick_stats (now : Date) (st : State) :
  groundNodes st <> [] ->
  stats (tick now st) =
    statsOf (latencies (groundNodes st) (sats (tick now st))).
Proof.
  intros Hne. rewrite tick_sats. unfold tick. cbv zeta.
  cbn [groundNodes setSats].
  unfold latencies at 1. rewrite length_map.
  destruct (groundNodes st) as [| g gs] eqn:Eg; [congruence |].
  reflexivity.
Qed.

(** Without ground nodes there is no sample: the guard
    [latencies.length > 0] keeps the statistics as they were. *)
Lemma tick_no_nodes (now : Date) (st : State) :
  groundNodes st = [] -> stats (tick now st) = stats st.
Proof.
  intros Hg. unfold tick. cbv zeta. cbn [groundNodes setSats].
  rewrite Hg. reflexivity.
Qed.

Lemma tick_groundNodes (now : Date) (st : State) :
  groundNodes (tick now st) = groundNodes st.
Proof.
  unfold tick. cbv zeta. destruct (0 <? _)%nat; reflexivity.
Qed.

Lemma tick_tleData (now : Date) (st : State) :
  tleData (tick now st) = tleData st.
Proof.
  unfold tick. cbv zeta. destruct (0 <? _)%nat; reflexivity.
Qed.

(** C2: a tick at which every propagation is absent, with at least two
    ground nodes, publishes no satellite position and the statistics
    [{ mean: Infinity, median: NaN, p95: NaN }], not the zero snapshot. *)
Theorem tick_all_absent (now : Date) (st : State) :
  (forall tle, In tle (tleData st) ->
     position (propagate (twoline2satrec (l1 tle) (l2 tle)) now) = None) ->
  (2 <= List.length (groundNodes st))%nat ->
  sats (tick now st) = []
  /\ stats (tick now st) =
       {| mean := Some PInf; median := Some NaN; p95 := Some NaN |}.
Proof.
  intros Habs Hn.
  assert (Hs : sats (tick now st) = []).
  { rewrite tick_sats, satPositions_resolved, resolved_none by exact Habs.
    reflexivity. }
  split; [exact Hs |].
  rewrite tick_stats, Hs.
  - rewrite latencies_no_satellite_repeat.
    destruct (List.length (groundNodes st)) as [| [| n]]; [lia | lia |].
    unfold statsOf.
    rewrite mean_repeat_PInf, median_repeat_PInf, p95_repeat_PInf.
    reflexivity.
  - intros Eg. rewrite Eg in Hn. simpl in Hn. lia.
Qed.

(** C8: the tick publishes exactly the projections of the positions that
    propagation resolved, in the order of the element sets; an element set
    whose propagation is absent contributes nothing and every other one is
    still projected. *)
Theorem tick_publishes_resolved (now : Date) (st : State) :
  sats (tick now st) = map (project (gstime now)) (resolved now (tleData st))
  /\ (forall pos,
        In pos (resolved now (tleData st)) <->
        exists tle,
          In tle (tleData st)
          /\ position (propagate (twoline2satrec (l1 tle) (l2 tle)) now)
             = Some pos)
  /\ (List.length (sats (tick now st)) <= List.length (tleData st))%nat.
Proof.
  split; [| split].
  - rewrite tick_sats. apply satPositions_resolved.
  - intros pos. unfold resolved. rewrite in_flat_map. split.
    + intros [tle [Ht Hp]]. exists tle. split; [exact Ht |].
      destruct (position (propagate (twoline2satrec (l1 tle) (l2 tle)) now))
        as [pos' |]; [| destruct Hp].
      destruct Hp as [-> | []]. reflexivity.
    + intros [tle [Ht Hp]]. exists tle. split; [exact Ht |].
      rewrite Hp. now left.
  - rewrite tick_sats, satPositions_resolved, length_map.
    apply resolved_length.
Qed.

End Tick.

(** ** Ingestion (C9) *)

Lemma fetched_length (text : string) :
  (List.length (fetched text) <= 40)%nat.
Proof. unfold fetched. cbv zeta. rewrite length_firstn. lia. Qed.

Lemma fetched_one_satellite :
  fetched one_satellite =
    [{| name := "SAT"; l1 := Some "L1"%string; l2 := Some "L2"%string |}].
Proof. reflexivity. Qed.

(** ** Ground nodes (C10) *)

Lemma mapM_cons {A B : Type} (f : A -> Rand B) (a : A) (l : list A)
  (rnd : nat -> R) (k : nat) :
  mapM f (a :: l) rnd k =
    (fst (f a rnd k) :: fst (mapM f l rnd (snd (f a rnd k))),
     snd (mapM f l rnd (snd (f a rnd k)))).
Proof.
  cbn [mapM]. unfold bind, ret.
  destruct (f a rnd k) as [b k1]. cbn [fst snd].
  destruct (mapM f l rnd k1) as [bs k2]. reflexivity.
Qed.

Lemma nodes_mapM (P : Geo -> Prop) (f : nat -> Rand Geo) (rnd : nat -> R) :
  (forall a k, P (fst (f a rnd k))) ->
  forall l k,
    List.length (fst (mapM f l rnd k)) = List.length l
    /\ Forall P (fst (mapM f l rnd k)).
Proof.
  intros Hf. induction l as [| a l IH]; intros k.
  - cbn. split; [reflexivity | constructor].
  - rewrite mapM_cons. cbn [fst List.length].
    destruct (IH (snd (f a rnd k))) as [IH1 IH2].
    split; [now rewrite IH1 | constructor; [apply Hf | exact IH2]].
Qed.

Lemma nodes_length (rnd : nat -> R) :
  List.length (fst (nodes rnd O)) = 20%nat.
Proof.
  unfold nodes.
  apply (nodes_mapM (fun _ => True)). intros; exact I.
Qed.

Lemma nodes_range (rnd : nat -> R) :
  (forall k, 0 <= rnd k < 1) ->
  Forall (fun g => -70 <= lat g < 70 /\ -180 <= lon g < 180)
         (fst (nodes rnd O)).
Proof.
  intros Hr. unfold nodes.
  apply (nodes_mapM
           (fun g => -70 <= lat g < 70 /\ -180 <= lon g < 180)).
  intros _ k. cbn.
  pose proof (Hr k). pose proof (Hr (S k)). lra.
Qed.

(** C10, as stated, fails: when [Math.random] returns 0, which its range
    [[0, 1)] allows, the latitude is exactly -70, so the latitudes are not
    confined to the open interval. *)
Lemma nodes_latitude_not_open :
  ~ Forall (fun g => -70 < lat g < 70 /\ -180 <= lon g < 180)
           (fst (nodes (fun _ => 0) O)).
Proof.
  intros H. unfold nodes, d3.range in H. cbn in H.
  apply Forall_inv in H. cbn in H. lra.
Qed.

(** ** Runs of the component (C9, C10) *)

Section Runs.

Context `{E : Externals}.

Lemma step_groundNodes (ev : Event) (st : State) :
  (forall rnd, ev <> Mounted rnd) ->
  groundNodes (step ev st) = groundNodes st.
Proof.
  intros Hev. destruct ev as [text | rnd | | | now]; cbn [step].
  - reflexivity.
  - exfalso. exact (Hev rnd eq_refl).
  - reflexivity.
  - reflexivity.
  - destruct (negb (running st) || _); [reflexivity |].
    apply tick_groundNodes.
Qed.

Lemma step_at_most_40 (ev : Event) (st : State) :
  (List.length (tleData st) <= 40)%nat /\
  (List.length (sats st) <= 40)%nat ->
  (List.length (tleData (step ev st)) <= 40)%nat /\
  (List.length (sats (step ev st)) <= 40)%nat.
Proof.
  intros [Ht Hs]. destruct ev as [text | rnd | | | now]; cbn [step].
  - split; [apply fetched_length | exact Hs].
  - split; assumption.
  - split; assumption.
  - split; assumption.
  - destruct (negb (running st) || _); [split; assumption |].
    rewrite tick_tleData. split; [exact Ht |].
    rewrite tick_sats, satPositions_resolved, length_map.
    pose proof (resolved_length now (tleData st)). lia.
Qed.

(** C9: in every state the component reaches, at most 40 element sets are
    tracked, since ingestion keeps the first 40, and the published list of
    satellite positions has at most 40 entries. *)
Theorem at_most_40_satellites (evs : list Event) :
  (List.length (tleData (run evs initial)) <= 40)%nat
  /\ (List.length (sats (run evs initial)) <= 40)%nat.
Proof.
  unfold run.
  assert (H0 : (List.length (tleData initial) <= 40)%nat /\
               (List.length (sats initial) <= 40)%nat)
    by (cbn; lia).
  revert H0. generalize initial.
  induction evs as [| ev evs IH]; intros st Hst; [exact Hst |].
  cbn [fold_left]. apply IH, step_at_most_40, Hst.
Qed.

(** C10 (amended): the ground-node effect produces exactly 20 nodes, each
    with latitude in [[-70, 70)] and longitude in [[-180, 180)], and no
    other event changes the list. *)
Theorem groundNodes_generated (rnd : nat -> R) :
  (forall k, 0 <= rnd k < 1) ->
  List.length (fst (nodes rnd O)) = 20%nat
  /\ Forall (fun g => -70 <= lat g < 70 /\ -180 <= lon g < 180)
            (fst (nodes rnd O))
  /\ (forall ev st,
        (forall rnd', ev <> Mounted rnd') ->
        groundNodes (step ev st) = groundNodes st).
Proof.
  intros Hr. split; [apply nodes_length |].
  split; [apply nodes_range, Hr | apply step_groundNodes].
Qed.

(** In every reachable state the published statistics are the initial
    zeros, or they are the statistics of the latencies to the published
    satellite positions: statistics and positions seen between two events
    come from one tick. *)
Lemma published_pair_consistent (evs : list Event) :
  let st := run evs initial in
  (groundNodes st = [] -> stats st = stats initial)
  /\ (stats st = stats initial
      \/ exists gs, stats st = statsOf (latencies gs (sats st))).
Proof.
  set (Inv := fun st : State =>
    (groundNodes st = [] -> stats st = stats initial)
    /\ (stats st = stats initial
        \/ exists gs, stats st = statsOf (latencies gs (sats st)))).
  assert (Hrun : forall evs st, Inv st -> Inv (run evs st)).
  { clear evs. unfold run.
    induction evs as [| ev evs IH]; intros st Hst; [exact Hst |].
    cbn [fold_left]. apply IH. clear IH.
    destruct Hst as [H1 H2].
    destruct ev as [text | rnd | | | now]; cbn [step].
    - split; assumption.
    - split; [| exact H2]. cbn [groundNodes setGroundNodes]. intros Eg.
      pose proof (nodes_length rnd) as Hl. rewrite Eg in Hl. discriminate.
    - split; assumption.
    - split; assumption.
    - destruct (negb (running st) || _); [split; assumption |].
      unfold Inv. rewrite tick_groundNodes.
      destruct (groundNodes st) as [| g gs] eqn:Eg.
      + rewrite tick_no_nodes by exact Eg.
        split; [intros _; now apply H1 | left; now apply H1].
      + split; [discriminate |]. right. exists (g :: gs).
        rewrite <- Eg. apply tick_stats. rewrite Eg. discriminate. }
  apply (Hrun evs initial). split; [reflexivity | now left].
Qed.

End Runs.

Lemma groundNodes_generated_witness :
  List.length (fst (nodes (fun _ => 1 / 2) O)) = 20%nat
  /\ Forall (fun g => -70 <= lat g < 70 /\ -180 <= lon g < 180)
            (fst (nodes (fun _ => 1 / 2) O)).
Proof.
  assert (Hr : forall k : nat, 0 <= (fun _ : nat => 1 / 2) k < 1)
    by (intros k; lra).
  destruct (groundNodes_generated (E := decayed) (fun _ => 1 / 2) Hr)
    as [Hl [Hf _]].
  split; [exact Hl | exact Hf].
Defined.

(** The component is mounted, the element set of one satellite arrives,
    Start is pressed and the interval fires, while every propagation fails:
    the footer is given [Infinity] and [NaN]. *)
Lemma tick_all_absent_witness :
  let st :=
    run (H := decayed)
        [Mounted (fun _ => 1 / 2); Fetched one_satellite; Start] initial in
  sats (step (@Interval decayed tt) st) = []
  /\ stats (step (@Interval decayed tt) st) =
       {| mean := Some PInf; median := Some NaN; p95 := Some NaN |}.
Proof.
  intros st.
  assert (Hstep : step (@Interval decayed tt) st
                  = tick (H := decayed) tt st) by reflexivity.
  rewrite Hstep.
  apply (tick_all_absent (E := decayed) tt st).
  - intros tle _. reflexivity.
  - change (groundNodes st) with (fst (nodes (fun _ => 1 / 2) O)).
    rewrite nodes_length. lia.
Defined.

(** * Further properties of the component *)

(** ** Splitting and trimming (lines 20 and 23) *)

Lemma split_newline_nonempty (text : string) : split_newline text <> [].
Proof.
  destruct text as [| c rest]; cbn; [discriminate |].
  destruct (Ascii.eqb c newline); [discriminate |].
  destruct (split_newline rest); discriminate.
Qed.

(** Joining the pieces of [split("\n")] with newlines gives the text back. *)
Theorem split_newline_join (text : string) :
  join_newline (split_newline text) = text.
Proof.
  unfold join_newline.
  induction text as [| c rest IH]; [reflexivity |].
  cbn [split_newline].
  destruct (Ascii.eqb_spec c newline) as [-> | Hc].
  - pose proof (split_newline_nonempty rest) as Hne.
    destruct (split_newline rest) as [| piece pieces]; [congruence |].
    cbn [String.concat]. cbn [String.concat] in IH.
    rewrite IH. reflexivity.
  - destruct (split_newline rest) as [| piece pieces] eqn:Es.
    + exfalso. exact (split_newline_nonempty rest Es).
    + cbn [String.concat] in IH |- *.
      destruct pieces as [| piece' pieces'].
      * rewrite IH. reflexivity.
      * rewrite <- IH. reflexivity.
Qed.

(** No piece of [split("\n")] contains a newline. *)
Theorem split_newline_pieces (text : string) :
  Forall (fun piece => ~ In newline (list_ascii_of_string piece))
         (split_newline text).
Proof.
  induction text as [| c rest IH]; cbn [split_newline].
  - constructor; [intros [] | constructor].
  - destruct (Ascii.eqb_spec c newline) as [-> | Hc].
    + constructor; [intros [] | exact IH].
    + destruct (split_newline rest) as [| piece pieces].
      * constructor; [| constructor]. cbn. intros [E | []]. congruence.
      * apply Forall_cons_iff in IH. destruct IH as [Hp Hps].
        constructor; [| exact Hps].
        cbn. intros [E | Hin]; [congruence | exact (Hp Hin)].
Qed.

Lemma trimStart_first (s : string) :
  match first_char (trimStart s) with
  | Some c => is_space c = false
  | None => True
  end.
Proof.
  induction s as [| c rest IH]; cbn; [exact I |].
  destruct (is_space c) eqn:Ec; [exact IH |]. cbn. exact Ec.
Qed.

Lemma trimEnd_idempotent (s : string) : trimEnd (trimEnd s) = trimEnd s.
Proof.
  induction s as [| c rest IH]; [reflexivity |].
  cbn [trimEnd].
  destruct (trimEnd rest) as [| d r] eqn:Er.
  - destruct (is_space c) eqn:Ec; [reflexivity |].
    cbn. rewrite Ec. reflexivity.
  - cbn [trimEnd]. cbn [trimEnd] in IH.
    destruct (trimEnd r) as [| d' r'] eqn:Er'.
    + destruct (is_space d) eqn:Ed; [discriminate |].
      rewrite IH. reflexivity.
    + rewrite IH. reflexivity.
Qed.

Lemma trimEnd_last (s : string) :
  match last_char (trimEnd s) with
  | Some c => is_space c = false
  | None => True
  end.
Proof.
  induction s as [| c rest IH]; cbn [trimEnd]; [exact I |].
  destruct (trimEnd rest) as [| d r] eqn:Er.
  - destruct (is_space c) eqn:Ec; cbn; [exact I | exact Ec].
  - cbn [last_char]. exact IH.
Qed.

Lemma trimEnd_first (c : ascii) (rest : string) :
  is_space c = false ->
  first_char (trimEnd (String c rest)) = Some c.
Proof.
  intros Hc. cbn [trimEnd].
  destruct (trimEnd rest); [rewrite Hc |]; reflexivity.
Qed.

Lemma trimStart_fixed (s : string) :
  match first_char s with
  | Some c => is_space c = false
  | None => True
  end ->
  trimStart s = s.
Proof.
  destruct s as [| c rest]; cbn; [reflexivity |].
  intros ->. reflexivity.
Qed.

Lemma trim_first (s : string) :
  match first_char (trim s) with
  | Some c => is_space c = false
  | None => True
  end.
Proof.
  unfold trim. pose proof (trimStart_first s) as Hf.
  destruct (trimStart s) as [| c rest]; [exact I |].
  cbn [first_char] in Hf. rewrite (trimEnd_first c rest Hf). exact Hf.
Qed.

(** [trim] leaves no white space at either end, and trimming again changes
    nothing. *)
Theorem trim_trimmed (s : string) :
  match first_char (trim s) with
  | Some c => is_space c = false
  | None => True
  end
  /\ match last_char (trim s) with
     | Some c => is_space c = false
     | None => True
     end
  /\ trim (trim s) = trim s.
Proof.
  split; [apply trim_first |].
  split; [apply trimEnd_last |].
  unfold trim at 1. rewrite (trimStart_fixed (trim s) (trim_first s)).
  unfold trim. apply trimEnd_idempotent.
Qed.

(** ** Grouping the lines in threes (lines 21 to 25) *)

Lemma list_ind3 {A : Type} (P : list A -> Prop) :
  P [] ->
  (forall a, P [a]) ->
  (forall a b, P [a; b]) ->
  (forall a b c l, P l -> P (a :: b :: c :: l)) ->
  forall l, P l.
Proof.
  intros H0 H1 H2 H3. fix IH 1.
  intros [| a [| b [| c l]]]; [exact H0 | apply H1 | apply H2 |].
  apply H3, IH.
Qed.

Lemma tles_of_lines_length (lines : list string) :
  List.length (tles_of_lines lines) = ((List.length lines + 2) / 3)%nat.
Proof.
  induction lines as [| a | a b | a b c l IH] using list_ind3;
    try reflexivity.
  cbn [tles_of_lines List.length]. rewrite IH.
  replace (S (S (S (List.length l))) + 2)%nat
    with (List.length l + 2 + 1 * 3)%nat by lia.
  rewrite Nat.div_add by lia. lia.
Qed.

(** The fetch effect tracks one satellite per started group of three
    non-blank lines, and at most 40. *)
Theorem fetched_count (text : string) :
  List.length (fetched text) =
    Nat.min 40 ((List.length (lines_of text) + 2) / 3).
Proof.
  unfold fetched. cbv zeta. fold (lines_of text).
  rewrite length_firstn, tles_of_lines_length. reflexivity.
Qed.

(** The record of index [i] is read at the indices [3 i], [3 i + 1] and
    [3 i + 2] of the lines; the last record of an incomplete group keeps
    the lines it lacks as [undefined]. *)
Theorem tles_of_lines_nth (lines : list string) (i : nat) :
  nth_error (tles_of_lines lines) i =
    option_map
      (fun n => {| name := trim n;
                   l1 := nth_error lines (3 * i + 1);
                   l2 := nth_error lines (3 * i + 2) |})
      (nth_error lines (3 * i)).
Proof.
  revert i.
  induction lines as [| a | a b | a b c l IH] using list_ind3; intros i.
  - rewrite !nth_error_nil. reflexivity.
  - destruct i as [| i]; [reflexivity |].
    replace (3 * S i)%nat with (S (S (S (3 * i)))) by lia.
    cbn. rewrite !nth_error_nil. reflexivity.
  - destruct i as [| i]; [reflexivity |].
    replace (3 * S i)%nat with (S (S (S (3 * i)))) by lia.
    cbn. rewrite !nth_error_nil. reflexivity.
  - destruct i as [| i]; [reflexivity |].
    replace (3 * S i)%nat with (S (S (S (3 * i)))) by lia.
    cbn [tles_of_lines nth_error Nat.add]. apply IH.
Qed.

(** Every record has both element lines exactly when the number of lines is
    a multiple of three. *)
Theorem tles_of_lines_complete (lines : list string) :
  Forall (fun tle => l1 tle <> None /\ l2 tle <> None) (tles_of_lines lines)
  <-> (List.length lines mod 3 = 0)%nat.
Proof.
  induction lines as [| a | a b | a b c l IH] using list_ind3.
  - split; [reflexivity | constructor].
  - split; [| discriminate].
    intros H. apply Forall_inv in H. cbn in H. destruct H as [H _].
    congruence.
  - split; [| discriminate].
    intros H. apply Forall_inv in H. cbn in H. destruct H as [_ H].
    congruence.
  - cbn [tles_of_lines List.length].
    replace (S (S (S (List.length l)))) with (List.length l + 1 * 3)%nat
      by lia.
    rewrite Nat.Div0.mod_add, <- IH. split.
    + intros H. apply Forall_inv_tail in H. exact H.
    + intros H. constructor; [| exact H]. cbn. split; discriminate.
Qed.

Lemma trim_idempotent (s : string) : trim (trim s) = trim s.
Proof.
  unfold trim at 1. rewrite (trimStart_fixed (trim s) (trim_first s)).
  unfold trim. apply trimEnd_idempotent.
Qed.

Lemma tles_of_lines_names (lines : list string) :
  Forall (fun l => trim l <> EmptyString) lines ->
  Forall (fun tle => name tle <> EmptyString /\ trim (name tle) = name tle)
         (tles_of_lines lines).
Proof.
  induction lines as [| a | a b | a b c l IH] using list_ind3; intros Hl.
  - constructor.
  - constructor; [| constructor]. cbn.
    split; [exact (Forall_inv Hl) | apply trim_idempotent].
  - constructor; [| constructor]. cbn.
    split; [exact (Forall_inv Hl) | apply trim_idempotent].
  - cbn [tles_of_lines]. constructor.
    + cbn. split; [exact (Forall_inv Hl) | apply trim_idempotent].
    + apply IH. do 3 apply Forall_inv_tail in Hl. exact Hl.
Qed.

Lemma lines_of_nonblank (text : string) :
  Forall (fun l => trim l <> EmptyString) (lines_of text).
Proof.
  unfold lines_of. apply Forall_forall. intros l Hl.
  apply filter_In in Hl. destruct Hl as [_ Hl].
  intros E. rewrite E in Hl. discriminate.
Qed.

Lemma Forall_firstn_of {A : Type} (P : A -> Prop) (n : nat) (l : list A) :
  Forall P l -> Forall P (firstn n l).
Proof.
  intros H. revert n. induction H as [| a l Ha Hl IH]; intros [| n]; cbn;
    constructor; auto.
Qed.

(** Every tracked satellite has a name that is not empty and carries no
    surrounding white space: blank lines never become a name. *)
Theorem fetched_names (text : string) :
  Forall (fun tle => name tle <> EmptyString /\ trim (name tle) = name tle)
         (fetched text).
Proof.
  unfold fetched. cbv zeta. fold (lines_of text).
  apply Forall_firstn_of, tles_of_lines_names, lines_of_nonblank.
Qed.

(** ** The random draws of the ground nodes (lines 32 to 35) *)

Lemma mapM_draws (rnd : nat -> R) (l : list nat) (k : nat) :
  mapM (fun _ =>
          lat <- Math_random ;;
          lon <- Math_random ;;
          ret {| lat := lat * 140 - 70; lon := lon * 360 - 180 |})
       l rnd k
  = (map (fun i => {| lat := rnd (k + 2 * i)%nat * 140 - 70;
                      lon := rnd (k + 2 * i + 1)%nat * 360 - 180 |})
         (seq 0 (List.length l)),
     (k + 2 * List.length l)%nat).
Proof.
  revert k. induction l as [| a l IH]; intros k.
  - cbn. rewrite Nat.add_0_r. reflexivity.
  - rewrite mapM_cons. cbn [fst snd bind ret Math_random].
    rewrite IH. cbn [fst snd List.length seq map]. f_equal.
    + f_equal.
      * replace (k + 2 * 0)%nat with k by lia.
        replace (k + 1)%nat with (S k) by lia. reflexivity.
      * rewrite <- seq_shift, map_map. apply map_ext. intros i.
        replace (k + 2 * S i)%nat with (S (S k) + 2 * i)%nat by lia.
        reflexivity.
    + lia.
Qed.

(** The ground-node effect reads exactly 40 results of [Math.random]: node
    [i] takes its latitude from draw [2 i] and its longitude from draw
    [2 i + 1]. *)
Theorem nodes_draws (rnd : nat -> R) :
  nodes rnd O =
    (map (fun i => {| lat := rnd (2 * i)%nat * 140 - 70;
                      lon := rnd (2 * i + 1)%nat * 360 - 180 |})
         (seq 0 20),
     40%nat).
Proof.
  unfold nodes. rewrite mapM_draws. reflexivity.
Qed.

(** ** More on the projection (lines 56 to 61) *)

Lemma atan2_right_half (y x : R) :
  0 <= x -> - (PI / 2) <= atan2 y x <= PI / 2.
Proof.
  intros Hx. pose proof PI_RGT_0 as HPI. unfold atan2.
  destruct (Rlt_dec 0 x).
  - pose proof (atan_bound (y / x)). lra.
  - destruct (Rlt_dec x 0); [lra |].
    destruct (Rlt_dec 0 y); [lra |].
    destruct (Rlt_dec y 0); lra.
Qed.

Lemma atan2_0_nonneg (x : R) : 0 <= x -> atan2 0 x = 0.
Proof.
  intros [Hx | <-]; [now apply atan2_0_pos |].
  unfold atan2. destruct (Rlt_dec 0 0); [lra | reflexivity].
Qed.

Lemma toDegrees_half_PI : toDegrees (PI / 2) = 90.
Proof. unfold toDegrees. field. apply PI_neq0. Qed.

(** The projected latitude lies in [[-90, 90]], whatever the position and
    the sidereal angle. *)
Theorem project_lat_range (gmst : R) (pos : Eci) :
  -90 <= lat (project gmst pos) <= 90.
Proof.
  cbn [project lat].
  pose proof (atan2_right_half (z pos)
                (sqrt (x pos * x pos + y pos * y pos))
                (sqrt_pos _)) as [Hlo Hhi].
  apply toDegrees_mono in Hlo. apply toDegrees_mono in Hhi.
  rewrite toDegrees_opp, toDegrees_half_PI in Hlo.
  rewrite toDegrees_half_PI in Hhi. lra.
Qed.

(** A position in the equatorial plane is projected to latitude 0, also on
    the axis itself, where [x = y = 0]. *)
Theorem project_equator (gmst : R) (pos : Eci) :
  z pos = 0 -> lat (project gmst pos) = 0.
Proof.
  intros Hz. cbn [project lat]. rewrite Hz.
  rewrite atan2_0_nonneg by apply sqrt_pos. apply toDegrees_0.
Qed.

Lemma project_equator_witness :
  lat (project 1 {| x := 3; y := 4; z := 0 |}) = 0.
Proof.
  exact (project_equator 1 {| x := 3; y := 4; z := 0 |} eq_refl).
Defined.



(** ** More on the latency engine (lines 67 to 74) *)

Lemma latencies_latency (groundNodes sats : list Geo) :
  latencies groundNodes sats = map (fun g => latency g sats) groundNodes.
Proof. reflexivity. Qed.

Lemma latency_nonempty (g : Geo) (sats : list Geo) :
  sats <> [] ->
  latency g sats = Fin (minimum (map (dist g) sats) / 300000 * 1000).
Proof.
  intros Hne. unfold latency. rewrite (minD_nonempty g sats Hne).
  apply latency_of_Fin.
Qed.

Lemma latency_empty (g : Geo) : latency g [] = PInf.
Proof. unfold latency. rewrite minD_empty. apply latency_of_PInf. Qed.

Lemma nearest_range (g : Geo) (sats : list Geo) :
  sats <> [] -> 0 <= minimum (map (dist g) sats) <= 6371 * PI.
Proof.
  intros Hne.
  assert (Hm : map (dist g) sats <> [])
    by (destruct sats; [congruence | discriminate]).
  apply minimum_In, in_map_iff in Hm. destruct Hm as [s [<- _]].
  apply haversine_bounds.
Qed.

Lemma minimum_incl (l l' : list R) :
  l <> [] -> incl l l' -> minimum l' <= minimum l.
Proof.
  intros Hne Hincl. apply minimum_le, Hincl, minimum_In, Hne.
Qed.

(** The latencies do not depend on the order of the satellite list. *)
Theorem latencies_permutation (groundNodes sats sats' : list Geo) :
  Permutation sats sats' ->
  latencies groundNodes sats = latencies groundNodes sats'.
Proof.
  intros Hp. rewrite !latencies_latency. apply map_ext. intros g.
  destruct sats as [| s sats].
  - apply Permutation_nil in Hp. rewrite Hp. reflexivity.
  - assert (Hne' : sats' <> []).
    { intros E. rewrite E in Hp. apply Permutation_sym in Hp.
      apply Permutation_nil in Hp. discriminate. }
    rewrite !latency_nonempty by (assumption || discriminate).
    do 3 f_equal.
    assert (Hm : Permutation (map (dist g) (s :: sats)) (map (dist g) sats'))
      by (apply Permutation_map; exact Hp).
    apply Rle_antisym.
    + apply minimum_incl.
      * destruct sats'; [congruence | discriminate].
      * intros v Hv. apply (Permutation_in v (Permutation_sym Hm) Hv).
    + apply minimum_incl; [discriminate |].
      intros v Hv. apply (Permutation_in v Hm Hv).
Qed.

Lemma latencies_permutation_witness :
  let a := {| lat := 0; lon := 0 |} in
  let b := {| lat := 10; lon := 20 |} in
  latencies [a; b] [a; b] = latencies [a; b] [b; a].
Proof.
  intros a b.
  exact (latencies_permutation [a; b] [a; b] [b; a] (perm_swap b a [])).
Defined.

(** More satellites never raise a latency: when every satellite of one list
    is in another, each node's latency to the larger list is at most its
    latency to the smaller one. *)
Theorem latencies_antitone (groundNodes sats sats' : list Geo) :
  incl sats sats' ->
  Forall2 (fun old new => le new old = true)
          (latencies groundNodes sats) (latencies groundNodes sats').
Proof.
  intros Hincl. rewrite !latencies_latency.
  induction groundNodes as [| g gs IH]; [constructor |].
  cbn [map]. constructor; [| exact IH].
  destruct sats as [| s sats].
  - rewrite latency_empty.
    destruct sats' as [| s' sats']; [rewrite latency_empty; reflexivity |].
    rewrite latency_nonempty by discriminate. reflexivity.
  - assert (Hne' : sats' <> []).
    { intros E. rewrite E in Hincl. exact (Hincl s (or_introl eq_refl)). }
    rewrite !latency_nonempty by (assumption || discriminate).
    cbn [le]. apply Rleb_true.
    assert (Hm : minimum (map (dist g) sats')
                 <= minimum (map (dist g) (s :: sats))).
    { apply minimum_incl; [discriminate |].
      intros v Hv. apply in_map_iff in Hv. destruct Hv as [t [<- Ht]].
      apply in_map, Hincl, Ht. }
    lra.
Qed.

Lemma latencies_antitone_witness :
  let a := {| lat := 0; lon := 0 |} in
  let b := {| lat := 10; lon := 20 |} in
  Forall2 (fun old new => le new old = true)
          (latencies [a; b] [a]) (latencies [a; b] [b; a]).
Proof.
  intros a b.
  apply (latencies_antitone [a; b] [a] [b; a]).
  intros s [<- | []]. right. left. reflexivity.
Defined.

(** ** More on the aggregation (lines 76 to 82) *)

(** On finite samples [sort((a, b) => a - b)] returns the samples in
    ascending order: a sorted permutation of its input. *)
Theorem sort_finite_ascending (vs : list R) :
  exists s,
    JS.sort sub (map Fin vs) = map Fin s
    /\ Permutation vs s
    /\ StronglySorted Rle s.
Proof.
  exists (Rsort vs). split; [apply (sort_Fin sub sub_compare_Fin) |].
  split; [apply Rsort_perm | apply Rsort_sorted].
Qed.

Lemma Rinsert_comm (a b : R) (l : list R) :
  Rinsert a (Rinsert b l) = Rinsert b (Rinsert a l).
Proof.
  induction l as [| c l IH].
  - cbn. unfold Rltb.
    destruct (Rlt_dec b a), (Rlt_dec a b); try reflexivity; try lra.
    assert (a = b) by lra. subst. reflexivity.
  - cbn [Rinsert]. unfold Rltb.
    destruct (Rlt_dec c b) as [Hcb | Hcb], (Rlt_dec c a) as [Hca | Hca];
      cbn [Rinsert]; unfold Rltb.
    + destruct (Rlt_dec c a); [| lra]. destruct (Rlt_dec c b); [| lra].
      fold (Rltb c a). f_equal. exact IH.
    + destruct (Rlt_dec c a); [lra |]. destruct (Rlt_dec a b); [| lra].
      destruct (Rlt_dec c b); [| lra]. reflexivity.
    + destruct (Rlt_dec b a); [| lra]. destruct (Rlt_dec c a); [| lra].
      destruct (Rlt_dec c b); [lra |]. reflexivity.
    + destruct (Rlt_dec c a); [lra |]. destruct (Rlt_dec c b); [lra |].
      destruct (Rlt_dec b a), (Rlt_dec a b); try reflexivity; try lra.
      assert (a = b) by lra. subst. reflexivity.
Qed.

Lemma Rsort_permutation (l l' : list R) :
  Permutation l l' -> Rsort l = Rsort l'.
Proof.
  unfold Rsort. induction 1 as [| a l l' _ IH | a b l | l l' l'' _ IH1 _ IH2].
  - reflexivity.
  - cbn [fold_right]. rewrite IH. reflexivity.
  - cbn [fold_right]. apply Rinsert_comm.
  - rewrite IH1. exact IH2.
Qed.

(** Median and 95th percentile of finite samples do not depend on the order
    of the samples. *)
Theorem quantiles_permutation (vs vs' : list R) :
  Permutation vs vs' ->
  d3.median (map Fin vs) = d3.median (map Fin vs')
  /\ d3.quantileSorted (JS.sort sub (map Fin vs)) 0.95
     = d3.quantileSorted (JS.sort sub (map Fin vs')) 0.95.
Proof.
  intros Hp. pose proof (Rsort_permutation vs vs' Hp) as Hs.
  split.
  - destruct vs as [| v vs].
    + apply Permutation_nil in Hp. rewrite Hp. reflexivity.
    + assert (Hne' : vs' <> []).
      { intros E. rewrite E in Hp. apply Permutation_sym in Hp.
        apply Permutation_nil in Hp. discriminate. }
      unfold d3.median.
      rewrite !quantile_Fin by (assumption || discriminate || lra).
      rewrite Hs. reflexivity.
  - rewrite !(sort_Fin sub sub_compare_Fin), Hs. reflexivity.
Qed.

Lemma quantiles_permutation_witness :
  d3.median [Fin 3; Fin 1; Fin 2] = d3.median [Fin 1; Fin 3; Fin 2]
  /\ d3.quantileSorted (JS.sort sub [Fin 3; Fin 1; Fin 2]) 0.95
     = d3.quantileSorted (JS.sort sub [Fin 1; Fin 3; Fin 2]) 0.95.
Proof.
  exact (quantiles_permutation [3; 1; 2] [1; 3; 2] (perm_swap 1 3 [2])).
Defined.

Lemma statsOf_single_Fin (r : R) :
  statsOf [Fin r] =
    {| mean := Some (Fin r); median := Some (Fin r); p95 := Some (Fin r) |}.
Proof.
  unfold statsOf.
  assert (Hne : [r] <> []) by discriminate.
  pose proof (mean_Fin [r] Hne) as Hm.
  pose proof (quantile_Fin [r] 0.5 Hne) as Hq.
  pose proof (quantileSorted_Fin [r] 0.95 Hne) as Hp.
  cbn [map] in Hm, Hq, Hp. unfold d3.median.
  rewrite Hm, Hq by lra.
  change (JS.sort sub [Fin r]) with [Fin r]. rewrite Hp by lra.
  f_equal. f_equal. f_equal. unfold total. cbn. field.
Qed.

Lemma statsOf_single_PInf :
  statsOf [PInf] =
    {| mean := Some PInf; median := Some PInf; p95 := Some PInf |}.
Proof.
  unfold statsOf.
  pose proof (mean_repeat_PInf 0) as Hm. cbn [repeat] in Hm. rewrite Hm.
  unfold d3.median, d3.quantile, d3.quantileSorted. cbn.
  rewrite !Rleb_false by lra. reflexivity.
Qed.

Lemma latencies_Fin (groundNodes sats : list Geo) :
  sats <> [] ->
  latencies groundNodes sats =
    map Fin (map (fun g => minimum (map (dist g) sats) / 300000 * 1000)
                 groundNodes).
Proof.
  intros Hne. rewrite latencies_latency, map_map. apply map_ext. intros g.
  apply latency_nonempty, Hne.
Qed.

Lemma statsOf_Fin (vs : list R) :
  vs <> [] ->
  statsOf (map Fin vs) =
    {| mean := Some (Fin (total vs / INR (List.length vs)));
       median := Some (Fin (quantileR (Rsort vs) 0.5));
       p95 := Some (Fin (quantileR (Rsort vs) 0.95)) |}.
Proof.
  intros Hne. unfold statsOf, d3.median.
  rewrite mean_Fin, quantile_Fin by (assumption || lra).
  rewrite (sort_Fin sub sub_compare_Fin), quantileSorted_Fin; [reflexivity | | lra].
  intros E. apply (f_equal (@List.length R)) in E.
  rewrite Rsort_length in E. destruct vs; [congruence | discriminate].
Qed.

Lemma statsOf_latencies_defined (groundNodes sats : list Geo) :
  groundNodes <> [] -> defined (statsOf (latencies groundNodes sats)).
Proof.
  intros Hg. destruct sats as [| s sats].
  - rewrite latencies_no_satellite_repeat.
    destruct groundNodes as [| g [| g' gs]]; [congruence | |].
    + cbn [List.length repeat]. rewrite statsOf_single_PInf.
      repeat split; discriminate.
    + cbn [List.length]. unfold statsOf.
      rewrite mean_repeat_PInf, median_repeat_PInf, p95_repeat_PInf.
      repeat split; discriminate.
  - rewrite latencies_Fin by discriminate. rewrite statsOf_Fin.
    + repeat split; discriminate.
    + destruct groundNodes; [congruence | discriminate].
Qed.

(** ** More on the tick and on runs (lines 42 to 86, 127, 140, 193 to 195) *)

Section MoreRuns.

Context `{E : Externals}.

(** With a single ground node the three published statistics all equal the
    latency of that node, also when it is [Infinity]. *)
Theorem tick_single_node (now : Date) (st : State) (g : Geo) :
  groundNodes st = [g] ->
  stats (tick now st) =
    let v := latency g (sats (tick now st)) in
    {| mean := Some v; median := Some v; p95 := Some v |}.
Proof.
  intros Hg. cbv zeta. rewrite tick_stats by (rewrite Hg; discriminate).
  rewrite Hg, latencies_latency. cbn [map].
  destruct (sats (tick now st)) as [| s ss].
  - rewrite latency_empty. apply statsOf_single_PInf.
  - rewrite latency_nonempty by discriminate. apply statsOf_single_Fin.
Qed.

(** Ticking again at the same instant changes nothing: a tick overwrites
    what the previous one published and accumulates nothing. *)
Theorem tick_idempotent (now : Date) (st : State) :
  tick now (tick now st) = tick now st.
Proof.
  unfold tick. cbv zeta.
  destruct (0 <? List.length
                   (latencies (groundNodes (setSats _ st)) _))%nat eqn:Eg;
    cbn [tleData groundNodes setSats setStats] in Eg |- *;
    rewrite Eg; reflexivity.
Qed.

(** What a tick publishes depends on the element sets, the ground nodes and
    the instant only, not on what was published before. *)
Theorem tick_forgets_history (now : Date) (st st' : State) :
  tleData st = tleData st' ->
  groundNodes st = groundNodes st' ->
  groundNodes st <> [] ->
  sats (tick now st) = sats (tick now st')
  /\ stats (tick now st) = stats (tick now st').
Proof.
  intros Ht Hg Hne.
  assert (Hs : sats (tick now st) = sats (tick now st'))
    by (rewrite !tick_sats, Ht; reflexivity).
  split; [exact Hs |].
  rewrite !tick_stats by (rewrite <- ?Hg; exact Hne).
  rewrite Hs, Hg. reflexivity.
Qed.

Lemma step_defined (ev : Event) (st : State) :
  defined (stats st) -> defined (stats (step ev st)).
Proof.
  intros Hd. destruct ev as [text | rnd | | | now]; cbn [step];
    try exact Hd.
  destruct (negb (running st) || _); [exact Hd |].
  destruct (groundNodes st) as [| g gs] eqn:Eg.
  - rewrite tick_no_nodes by exact Eg. exact Hd.
  - rewrite tick_stats by (rewrite Eg; discriminate).
    apply statsOf_latencies_defined. rewrite Eg. discriminate.
Qed.

(** In every state the component reaches, none of the three statistics is
    [undefined]: the [toFixed] calls of the footer never fail. *)
Theorem stats_always_defined (evs : list Event) :
  defined (stats (run evs initial)).
Proof.
  unfold run.
  assert (H0 : defined (stats initial))
    by (repeat split; discriminate).
  revert H0. generalize initial.
  induction evs as [| ev evs IH]; intros st Hst; [exact Hst |].
  cbn [fold_left]. apply IH, step_defined, Hst.
Qed.

Lemma step_idle_not_running (ev : Event) (st : State) :
  ev <> Start ->
  running st = false /\ sats st = [] /\ stats st = stats initial ->
  running (step ev st) = false /\ sats (step ev st) = []
  /\ stats (step ev st) = stats initial.
Proof.
  intros Hev [Hr [Hs Hst]].
  destruct ev as [text | rnd | | | now]; cbn [step];
    try (repeat split; assumption).
  - congruence.
  - rewrite Hr. cbn [negb orb]. repeat split; assumption.
Qed.

Lemma step_idle_no_tle (ev : Event) (st : State) :
  (forall text, ev <> Fetched text) ->
  tleData st = [] /\ sats st = [] /\ stats st = stats initial ->
  tleData (step ev st) = [] /\ sats (step ev st) = []
  /\ stats (step ev st) = stats initial.
Proof.
  intros Hev [Ht [Hs Hst]].
  destruct ev as [text | rnd | | | now]; cbn [step];
    try (repeat split; assumption).
  - exfalso. exact (Hev text eq_refl).
  - rewrite Ht. cbn [List.length Nat.eqb]. rewrite orb_true_r.
    repeat split; assumption.
Qed.

(** Nothing is published before Start has been pressed, and nothing is
    published before an element set has been fetched: the satellite list
    stays empty and the statistics stay at their initial zeros. *)
Theorem nothing_published_without (evs : list Event) :
  Forall (fun ev => ev <> Start) evs
  \/ Forall (fun ev => forall text, ev <> Fetched text) evs ->
  sats (run evs initial) = [] /\ stats (run evs initial) = stats initial.
Proof.
  unfold run. intros [H | H].
  - assert (H0 : running initial = false /\ sats initial = []
                 /\ stats initial = stats initial)
      by (repeat split; reflexivity).
    revert H0. generalize initial at 1 2 3 5 6.
    induction H as [| ev evs Hev _ IH]; intros st Hst.
    + destruct Hst as [_ Hst]. exact Hst.
    + cbn [fold_left]. apply IH, step_idle_not_running; assumption.
  - assert (H0 : tleData initial = [] /\ sats initial = []
                 /\ stats initial = stats initial)
      by (repeat split; reflexivity).
    revert H0. generalize initial at 1 2 3 5 6.
    induction H as [| ev evs Hev _ IH]; intros st Hst.
    + destruct Hst as [_ Hst]. exact Hst.
    + cbn [fold_left]. apply IH, step_idle_no_tle; assumption.
Qed.

End MoreRuns.

Lemma tick_single_node_witness :
  stats (tick (H := fixed_sky) tt one_node_state) =
    let v := latency {| lat := 0; lon := 0 |}
                     (sats (tick (H := fixed_sky) tt one_node_state)) in
    {| mean := Some v; median := Some v; p95 := Some v |}.
Proof.
  exact (tick_single_node (E := fixed_sky) tt one_node_state
           {| lat := 0; lon := 0 |} eq_refl).
Defined.

Lemma tick_forgets_history_witness :
  sats (tick (H := fixed_sky) tt one_node_state)
  = sats (tick (H := fixed_sky) tt (setSats [] one_node_state))
  /\ stats (tick (H := fixed_sky) tt one_node_state)
     = stats (tick (H := fixed_sky) tt (setSats [] one_node_state)).
Proof.
  apply (tick_forgets_history (E := fixed_sky) tt one_node_state
           (setSats [] one_node_state)).
  - reflexivity.
  - reflexivity.
  - cbn. discriminate.
Defined.

Lemma nothing_published_without_witness :
  let evs :=
    [@Fetched decayed one_satellite; @Mounted decayed (fun _ => 1 / 2);
     @Interval decayed tt] in
  sats (run (H := decayed) evs initial) = []
  /\ stats (run (H := decayed) evs initial) = stats initial.
Proof.
  intros evs.
  apply (nothing_published_without (E := decayed) evs).
  left. repeat constructor; discriminate.
Defined.

Lemma haversine_same (lat1 lon1 : R) : haversine lat1 lon1 lat1 lon1 = 0.
Proof.
  rewrite haversine_unfold, hav_same.
  rewrite Rminus_0_r, sqrt_0, sqrt_1, atan2_0_pos by lra. ring.
Qed.

(** A ground node that has a satellite exactly overhead has latency 0. *)
Theorem latency_overhead (g : Geo) (sats : list Geo) :
  In g sats -> latency g sats = Fin 0.
Proof.
  intros Hin.
  assert (Hne : sats <> []) by (intros E; rewrite E in Hin; exact Hin).
  rewrite latency_nonempty by exact Hne.
  pose proof (nearest_range g sats Hne) as [Hlo _].
  assert (Hle : minimum (map (dist g) sats) <= dist g g)
    by (apply minimum_le, in_map, Hin).
  unfold dist at 2 in Hle. rewrite haversine_same in Hle.
  f_equal. replace (minimum (map (dist g) sats)) with 0 by lra. field.
Qed.

Lemma latency_overhead_witness :
  let g := {| lat := 45; lon := 45 |} in
  latency g [{| lat := 0; lon := 0 |}; g] = Fin 0.
Proof.
  intros g.
  apply (latency_overhead g [{| lat := 0; lon := 0 |}; g]).
  right. left. reflexivity.
Defined.

Section Stopped.

Context `{E : Externals}.

Lemma setRunning_same (st : State) (b : bool) :
  running st = b -> setRunning b st = st.
Proof. intros <-. destruct st. reflexivity. Qed.

(** While the component is stopped, pressing Stop and firings of the
    interval leave the whole state as it is. *)
Theorem stopped_quiescent (evs : list Event) (st : State) :
  running st = false ->
  Forall (fun ev => ev = Stop \/ exists now, ev = Interval now) evs ->
  run evs st = st.
Proof.
  intros Hr Hevs. unfold run.
  induction Hevs as [| ev evs Hev _ IH]; [reflexivity |].
  cbn [fold_left].
  assert (Hstep : step ev st = st).
  { destruct Hev as [-> | [now ->]]; cbn [step].
    - apply setRunning_same, Hr.
    - rewrite Hr. reflexivity. }
  rewrite Hstep. exact IH.
Qed.

End Stopped.

Lemma stopped_quiescent_witness :
  let st := setRunning false one_node_state in
  run (H := fixed_sky) [@Interval fixed_sky tt; @Stop fixed_sky;
                        @Interval fixed_sky tt] st = st.
Proof.
  intros st.
  apply (stopped_quiescent (E := fixed_sky)).
  - reflexivity.
  - constructor; [right; now exists tt |].
    constructor; [now left |].
    constructor; [right; now exists tt | constructor].
Defined.

(** * The binary64 embedding *)

Section Binary64.

Import PrimFloat FloatOps FloatAxioms SpecFloat.
Local Open Scope float_scope.

(** ** The order of binary64 numbers *)

Ltac cmp_cases :=
  repeat match goal with
    | H : context [Pos.compare_cont Eq ?a ?b] |- _ =>
        change (Pos.compare_cont Eq a b) with (Pos.compare a b) in H
    | |- context [Pos.compare_cont Eq ?a ?b] =>
        change (Pos.compare_cont Eq a b) with (Pos.compare a b)
    end;
  repeat match goal with
    | H : context [Z.compare ?a ?b] |- _ => destruct (Z.compare_spec a b)
    | |- context [Z.compare ?a ?b] => destruct (Z.compare_spec a b)
    | H : context [Pos.compare ?a ?b] |- _ => destruct (Pos.compare_spec a b)
    | |- context [Pos.compare ?a ?b] => destruct (Pos.compare_spec a b)
    end;
  cbn in *; subst; try discriminate; try reflexivity; try lia.

Lemma SFleb_trans (u v w : spec_float) :
  SFleb u v = true -> SFleb v w = true -> SFleb u w = true.
Proof.
  unfold SFleb.
  destruct u as [su | su | | su mu eu], v as [sv | sv | | sv mv ev],
           w as [sw | sw | | sw mw ew]; cbn;
    try discriminate; try reflexivity;
    try (destruct su); try (destruct sv); try (destruct sw); cbn;
    try discriminate; try reflexivity; intros H1 H2; cmp_cases.
Qed.

Lemma SFleb_total (u v : spec_float) :
  u <> S754_nan -> v <> S754_nan -> SFltb u v = false -> SFleb v u = true.
Proof.
  unfold SFleb, SFltb.
  destruct u as [su | su | | su mu eu], v as [sv | sv | | sv mv ev]; cbn;
    try congruence;
    try (destruct su); try (destruct sv); cbn;
    try discriminate; try reflexivity; intros _ _ H; cmp_cases.
Qed.

Lemma SFltb_leb (u v : spec_float) : SFltb u v = true -> SFleb u v = true.
Proof.
  unfold SFleb, SFltb. destruct (SFcompare u v) as [[ | | ] |]; congruence.
Qed.

Lemma SFleb_refl (u : spec_float) : u <> S754_nan -> SFleb u u = true.
Proof.
  unfold SFleb. destruct u as [su | su | | su mu eu]; cbn; try congruence;
    destruct su; cbn; try reflexivity; intros _; cmp_cases.
Qed.

Lemma SFltb_not_nan (u v : spec_float) :
  SFltb u v = true -> u <> S754_nan /\ v <> S754_nan.
Proof.
  unfold SFltb. destruct u, v; cbn; try discriminate; split; discriminate.
Qed.

Lemma is_nan_Prim2SF (a : float) :
  is_nan a = false <-> Prim2SF a <> S754_nan.
Proof.
  unfold is_nan. rewrite eqb_spec. unfold SFeqb.
  destruct (Prim2SF a) as [s | s | | s m e]; cbn.
  - split; [discriminate | reflexivity].
  - destruct s; split; (discriminate || reflexivity).
  - split; [discriminate | congruence].
  - destruct s; cbn; rewrite Z.compare_refl;
      change (Pos.compare_cont Eq m m) with (Pos.compare m m);
      rewrite Pos.compare_refl; cbn; split; (discriminate || reflexivity).
Qed.

Lemma leb_trans (a b c : float) :
  (a <=? b) = true -> (b <=? c) = true -> (a <=? c) = true.
Proof. rewrite !leb_spec. apply SFleb_trans. Qed.

Lemma leb_total (a b : float) :
  is_nan a = false -> is_nan b = false ->
  (a <? b) = false -> (b <=? a) = true.
Proof.
  rewrite !is_nan_Prim2SF, ltb_spec, leb_spec. apply SFleb_total.
Qed.

Lemma ltb_leb (a b : float) : (a <? b) = true -> (a <=? b) = true.
Proof. rewrite ltb_spec, leb_spec. apply SFltb_leb. Qed.

Lemma leb_refl (a : float) : is_nan a = false -> (a <=? a) = true.
Proof. rewrite is_nan_Prim2SF, leb_spec. apply SFleb_refl. Qed.

Lemma ltb_not_nan (a b : float) :
  (a <? b) = true -> is_nan a = false /\ is_nan b = false.
Proof. rewrite !is_nan_Prim2SF, ltb_spec. apply SFltb_not_nan. Qed.

(** ** The running minimum *)

Lemma fold_min_least (d : B64.Geo -> float) (sats : list B64.Geo) (m0 : float) :
  is_nan m0 = false ->
  let m :=
    fold_left (fun minD s => if d s <? minD then d s else minD) sats m0 in
  is_nan m = false
  /\ (m <=? m0) = true
  /\ (m = m0 \/ exists s, In s sats /\ m = d s)
  /\ (forall s, In s sats -> is_nan (d s) = false -> (m <=? d s) = true).
Proof.
  revert m0. induction sats as [| s sats IH]; intros m0 Hm0; cbn [fold_left].
  - split; [exact Hm0 |]. split; [apply leb_refl, Hm0 |].
    split; [now left | intros s []].
  - destruct (d s <? m0) eqn:Hlt.
    + destruct (ltb_not_nan _ _ Hlt) as [Hd _].
      destruct (IH (d s) Hd) as [H1 [H2 [H3 H4]]].
      split; [exact H1 |].
      split; [apply (leb_trans _ (d s)); [exact H2 | apply ltb_leb, Hlt] |].
      split.
      * right. destruct H3 as [-> | [t [Ht Et]]].
        -- exists s. split; [now left | reflexivity].
        -- exists t. split; [now right | exact Et].
      * intros t [<- | Ht] Hdt; [exact H2 | now apply H4].
    + destruct (IH m0 Hm0) as [H1 [H2 [H3 H4]]].
      split; [exact H1 |]. split; [exact H2 |].
      split.
      * destruct H3 as [-> | [t [Ht Et]]]; [now left |].
        right. exists t. split; [now right | exact Et].
      * intros t [<- | Ht] Hdt; [| now apply H4].
        apply (leb_trans _ m0); [exact H2 |].
        apply leb_total; assumption.
Qed.

(** In binary64, for every mathematical library, the running minimum of a
    ground node is never [NaN]: it is [Infinity] or the value [haversine]
    returns for one of the satellites, and it is at most the value for every
    satellite for which that value is a number.  A satellite whose distance
    is [NaN] is passed over. *)
Theorem b64_minD_least `{M : B64.Math} (g : B64.Geo) (sats : list B64.Geo) :
  let d := fun s =>
    B64.haversine (B64.lat g) (B64.lon g) (B64.lat s) (B64.lon s) in
  is_nan (B64.minD g sats) = false
  /\ (B64.minD g sats = infinity
      \/ exists s, In s sats /\ B64.minD g sats = d s)
  /\ (forall s, In s sats -> is_nan (d s) = false ->
                (B64.minD g sats <=? d s) = true).
Proof.
  intros d.
  destruct (fold_min_least d sats infinity eq_refl) as [H1 [_ [H3 H4]]].
  split; [exact H1 |]. split; [exact H3 | exact H4].
Qed.

(** ** Two nearly antipodal positions (C5) *)

(** C5: for the ground node (8, 0) and the single satellite (-8, -180), with
    a mathematical library that returns the correctly rounded sines, cosines
    and squares at the arguments [haversine] passes, the quantity [a] is
    [1.0000000000000002], [Math.sqrt(1 - a)] is [NaN] and so is the
    distance; the comparison [d < minD] fails, the minimum the engine keeps
    is not at most the distance to the satellite, and the latency of the
    node is [Infinity] although a satellite is listed. *)
Theorem b64_antipodal_latency (M : B64.Math) :
  B64.sin (-0x1.1df46a2529d39p-3) = -0x1.1d06c968d9e19p-3 ->
  B64.sin (-0x1.921fb54442d18p+0) = -1 ->
  B64.cos 0x1.1df46a2529d39p-3 = 0x1.fb046a930947ap-1 ->
  B64.cos (-0x1.1df46a2529d39p-3) = 0x1.fb046a930947ap-1 ->
  B64.pow (-0x1.1d06c968d9e19p-3) 2 = 0x1.3d581ca184804p-6 ->
  B64.pow (-1) 2 = 1 ->
  (forall y, B64.atan2 y nan = nan) ->
  let g := {| B64.lat := 8; B64.lon := 0 |} in
  let s := {| B64.lat := -8; B64.lon := -180 |} in
  B64.haversine 8 0 (-8) (-180) = nan
  /\ B64.minD g [s] = infinity
  /\ (B64.minD g [s] <=? B64.haversine 8 0 (-8) (-180)) = false
  /\ B64.latencies [g] [s] = [infinity].
Proof.
  intros Hs1 Hs2 Hc1 Hc2 Hp1 Hp2 Hat g s.
  assert (Hh : B64.haversine 8 0 (-8) (-180) = nan).
  { unfold B64.haversine. cbv zeta.
    change ((-8 - 8) * B64.PI / 180 / 2) with (-0x1.1df46a2529d39p-3).
    change ((-180 - 0) * B64.PI / 180 / 2) with (-0x1.921fb54442d18p+0).
    change (8 * B64.PI / 180) with 0x1.1df46a2529d39p-3.
    change (-8 * B64.PI / 180) with (-0x1.1df46a2529d39p-3).
    rewrite Hs1, Hs2, Hc1, Hc2, Hp1, Hp2.
    change (sqrt
              (1 -
               (0x1.3d581ca184804p-6 +
                0x1.fb046a930947ap-1 * 0x1.fb046a930947ap-1 * 1)))
      with nan.
    rewrite Hat. reflexivity. }
  assert (Hm : B64.minD g [s] = infinity).
  { unfold B64.minD. cbn [fold_left B64.lat B64.lon g s].
    rewrite Hh. reflexivity. }
  split; [exact Hh |]. split; [exact Hm |].
  split; [rewrite Hm, Hh; reflexivity |].
  unfold B64.latencies. cbn [map]. rewrite Hm. reflexivity.
Qed.

Lemma b64_antipodal_latency_witness :
  B64.haversine (H := B64.at_antipode) 8 0 (-8) (-180) = nan
  /\ B64.minD (H := B64.at_antipode)
       {| B64.lat := 8; B64.lon := 0 |} [{| B64.lat := -8; B64.lon := -180 |}]
     = infinity
  /\ (B64.minD (H := B64.at_antipode)
        {| B64.lat := 8; B64.lon := 0 |}
        [{| B64.lat := -8; B64.lon := -180 |}]
      <=? B64.haversine (H := B64.at_antipode) 8 0 (-8) (-180)) = false
  /\ B64.latencies (H := B64.at_antipode)
       [{| B64.lat := 8; B64.lon := 0 |}]
       [{| B64.lat := -8; B64.lon := -180 |}]
     = [infinity].
Proof.
  apply (b64_antipodal_latency B64.at_antipode);
    try reflexivity.
  intros y. cbn. destruct (is_nan y); reflexivity.
Defined.

(** ** The mean of three equal samples (C6) *)

(** C6, as stated, fails: the mean of three samples of 0.1 ms is
    [(0.1 + 0.1 + 0.1) / 3 = 0.10000000000000002], above the greatest
    sample. *)
Lemma b64_mean_above_max :
  let v := 0x1.999999999999ap-4 in
  B64.d3.mean [v; v; v] = Some 0x1.999999999999bp-4
  /\ (v <? 0x1.999999999999bp-4) = true.
Proof. split; reflexivity. Qed.

End Binary64.
